(** * RelayQueryTransform.traverse: copy-on-write rewriting of a query tree

    A shallow embedding of [src/query/RelayQueryTransform.js].  JavaScript
    objects have identity and arrays are mutated in place ([push]), so the
    embedding works over an explicit store: every query node and every array
    of children is a cell of a heap, a reference is the address of its cell,
    and [!==] is inequality of addresses. *)

From stdpp Require Import base option list.

Set Default Proof Using "Type".
Set Warnings "-register-all".

(** ** The store *)

(** A reference to a heap object.  Fresh cells are appended to the heap, so
    the address of a new object is the current length of the heap. *)
Definition loc := nat.

(** The node variants of the query tree. *)
Inductive Kind := Root | Fragment | Field.

(** A query node: its kind, its metadata (name, arguments, directives, which
    the transform never inspects), whether it can have sub-selections, and the
    reference to the array holding its children. *)
Record QueryNode := Node {
  kind : Kind;
  meta : nat;
  subselections : bool;
  children : loc
}.

Inductive cell :=
| CNode (n : QueryNode)
| CArr (a : list loc).

(** [clones] is ghost state: the calls made to [clone] so far, oldest first,
    each with the node cloned and the contents of the array handed over. *)
Record store := Store {
  heap : list cell;
  clones : list (loc * list loc)
}.

(** ** The monad of the embedding

    [Stuck] stands for a JavaScript [TypeError] (a property read through a
    reference that is not an object of the expected class); [OutOfFuel] is
    only produced by the fuel-bounded recursion further down. *)
Inductive res (A : Type) :=
| Ok (a : A) (s : store)
| Stuck
| OutOfFuel.
Arguments Ok {A} a s.
Arguments Stuck {A}.
Arguments OutOfFuel {A}.

Definition M (A : Type) : Type := store → res A.

Definition ret {A} (a : A) : M A := λ s, Ok a s.

Definition bind {A B} (m : M A) (k : A → M B) : M B :=
  λ s, match m s with
       | Ok a s' => k a s'
       | Stuck => Stuck
       | OutOfFuel => OutOfFuel
       end.

Definition stuck {A} : M A := λ _, Stuck.

Declare Scope js_scope.
Delimit Scope js_scope with js.
Notation "x <- m ;; k" := (bind m (λ x, k))
  (at level 100, m at next level, right associativity) : js_scope.
Notation "m ;;; k" := (bind m (λ _, k))
  (at level 100, right associativity) : js_scope.
Open Scope js_scope.

(** ** Heap primitives *)

Definition get_node (l : loc) : M QueryNode :=
  λ s, match heap s !! l with
       | Some (CNode n) => Ok n s
       | _ => Stuck
       end.

Definition get_array (a : loc) : M (list loc) :=
  λ s, match heap s !! a with
       | Some (CArr xs) => Ok xs s
       | _ => Stuck
       end.

Definition alloc (c : cell) : M loc :=
  λ s, Ok (length (heap s)) (Store (heap s ++ [c]) (clones s)).

Definition set_array (a : loc) (xs : list loc) : M unit :=
  λ s, Ok tt (Store (<[a := CArr xs]> (heap s)) (clones s)).

(** [children[index]] *)
Definition array_get (a : loc) (index : nat) : M loc :=
  xs <- get_array a ;;
  match xs !! index with
  | Some x => ret x
  | None => stuck
  end.

(** [children.slice(0, index)]: a new array, never an alias of the old one. *)
Definition array_slice0 (a : loc) (index : nat) : M loc :=
  xs <- get_array a ;;
  alloc (CArr (take index xs)).

(** [nextChildren.push(nextChild)]: in place. *)
Definition array_push (a : loc) (x : loc) : M unit :=
  xs <- get_array a ;;
  set_array a (xs ++ [x]).

(** [nextChildren.length] *)
Definition array_length (a : loc) : M nat :=
  xs <- get_array a ;;
  ret (length xs).

(** ** The Node Model *)

(** Modelled from the spec: [canHaveSubselections] of the node classes
    (RelayQuery, outside RelayQueryTransform.js); the node reports whether it can have
    child nodes. *)
Definition canHaveSubselections (l : loc) : M bool :=
  n <- get_node l ;;
  ret (subselections n).

(** Modelled from the spec: the ordered children accessor of the node classes
    (RelayQuery, outside RelayQueryTransform.js). *)
Definition getChildren (l : loc) : M loc :=
  n <- get_node l ;;
  ret (children n).

Definition log_clone (l : loc) (xs : list loc) : M unit :=
  λ s, Ok tt (Store (heap s) (clones s ++ [(l, xs)])).

(** Modelled from the spec: [clone] of the node classes (RelayQuery, outside
    RelayQueryTransform.js); a new node of the same kind and metadata with the given
    replacement children. *)
Definition clone (l : loc) (newChildren : loc) : M loc :=
  n <- get_node l ;;
  xs <- get_array newChildren ;;
  log_clone l xs ;;;
  alloc (CNode (Node (kind n) (meta n) (subselections n) newChildren)).

(** ** The visitor interface

    [traverse] calls two methods through [this]: [visit] and
    [traverseChildren], both inherited from RelayQueryVisitor.  The callback
    handed to [traverseChildren] assigns the captured local [nextChildren];
    the embedding threads that local through the callback as an accumulator
    of type [A]. *)
Record Visitor (Ts : Type) := {
  visit : loc → Ts → M (option loc);
  traverseChildren :
    ∀ A : Type, loc → Ts → (loc → nat → loc → A → M A) → A → M A
}.
Arguments visit {Ts} _ _ _.
Arguments traverseChildren {Ts} _ {A} _ _ _ _.

(** [nextChild !== prevChild], where [nextChild] may be null or undefined
    ([None]) and [prevChild] is a node. *)
Definition strict_eq (a : option loc) (b : loc) : bool :=
  match a with
  | Some x => Nat.eqb x b
  | None => false
  end.

Section Transform.
Context {Ts : Type}.

(** The body of the function passed to [traverseChildren] (lines 72-81). *)
Definition callback (V : Visitor Ts) (nextState : Ts)
    (child : loc) (index : nat) (children : loc)
    (nextChildren : option loc) : M (option loc) :=
  prevChild <- array_get children index ;;
  nextChild <- visit V prevChild nextState ;;
  nextChildren <-
    (if negb (strict_eq nextChild prevChild) then
       match nextChildren with
       | Some a => ret (Some a)
       | None => a <- array_slice0 children index ;; ret (Some a)
       end
     else ret nextChildren) ;;
  match nextChildren, nextChild with
  | Some a, Some c => array_push a c ;;; ret nextChildren
  | _, _ => ret nextChildren
  end.

(** [RelayQueryTransform.traverse] (lines 64-89). *)
Definition traverse (V : Visitor Ts) (node : loc) (nextState : Ts)
    : M (option loc) :=
  b <- canHaveSubselections node ;;
  if negb b then ret (Some node) else
  nextChildren <- traverseChildren V node nextState (callback V nextState) None ;;
  match nextChildren with
  | Some a =>
      len <- array_length a ;;
      if Nat.eqb len 0 then ret None
      else (c <- clone node a ;; ret (Some c))
  | None => ret (Some node)
  end.

(** Modelled from the spec: the loop of [traverseChildren] (RelayQueryVisitor,
    outside RelayQueryTransform.js); the callback is invoked once per child,
    in order, with the child, its index and the children sequence. *)
Fixpoint forEachChild {A} (cb : loc → nat → loc → A → M A)
    (children : loc) (index : nat) (cs : list loc) (acc : A) : M A :=
  match cs with
  | [] => ret acc
  | child :: rest =>
      acc' <- cb child index children acc ;;
      forEachChild cb children (S index) rest acc'
  end.

(** Modelled from the spec: [traverseChildren] (RelayQueryVisitor, outside
    RelayQueryTransform.js). *)
Definition visitChildren {A} (node : loc) (nextState : Ts)
    (cb : loc → nat → loc → A → M A) (acc : A) : M A :=
  children <- getChildren node ;;
  cs <- get_array children ;;
  forEachChild cb children 0 cs acc.

(** The visitor whose [traverseChildren] is the specified one and whose
    [visit] is [v]. *)
Definition visitor (v : loc → Ts → M (option loc)) : Visitor Ts :=
  {| visit := v; traverseChildren := @visitChildren |}.

End Transform.

(** ** The closed recursion: [visit] dispatching to handlers

    [traverse] and [visit] call each other through [this].  The handlers of a
    transform receive [traverse] as their first argument; the recursion is
    bounded by fuel, one unit per [traverse] frame. *)

Section Handlers.
Context {Ts : Type}.

Definition traversal : Type := loc → Ts → M (option loc).

Record Handlers := {
  visitRoot : traversal → loc → Ts → M (option loc);
  visitFragment : traversal → loc → Ts → M (option loc);
  visitField : traversal → loc → Ts → M (option loc)
}.

(** Modelled from the spec: [visit] (RelayQueryVisitor, outside
    RelayQueryTransform.js); determines the kind of the node, invokes the
    handler of that kind with the node and the state, and returns the
    handler's result unchanged. *)
Definition dispatch (H : Handlers) (trav : traversal) : traversal :=
  λ node nextState,
    n <- get_node node ;;
    match kind n with
    | Field => visitField H trav node nextState
    | Fragment => visitFragment H trav node nextState
    | Root => visitRoot H trav node nextState
    end.

Fixpoint traverse_fuel (H : Handlers) (fuel : nat) : traversal :=
  match fuel with
  | 0 => λ _ _ _, OutOfFuel
  | S fuel' => traverse (visitor (dispatch H (traverse_fuel H fuel')))
  end.

(** Modelled from the spec: the default handlers (RelayQueryVisitor, outside
    RelayQueryTransform.js); each calls [traverse] on its node and returns
    the result verbatim. *)
Definition defaultHandlers : Handlers :=
  {| visitRoot := λ trav, trav;
     visitFragment := λ trav, trav;
     visitField := λ trav, trav |}.

(** A transform that overrides every handler to map the node [tgt] to [rep]
    (a replacement, or nothing) and to behave as the default elsewhere. *)
Definition replaceHandler (tgt : loc) (rep : option loc)
    : traversal → loc → Ts → M (option loc) :=
  λ trav node nextState,
    if Nat.eqb node tgt then ret rep else trav node nextState.

Definition replaceAt (tgt : loc) (rep : option loc) : Handlers :=
  {| visitRoot := replaceHandler tgt rep;
     visitFragment := replaceHandler tgt rep;
     visitField := replaceHandler tgt rep |}.

(** Applying a transform to the result of applying it. *)
Definition twice (f : traversal) : traversal :=
  λ node nextState,
    r <- f node nextState ;;
    match r with
    | Some node' => f node' nextState
    | None => ret None
    end.

(** Running [v] on each child in turn, and nothing else. *)
Fixpoint visit_each (v : traversal) (cs : list loc) (nextState : Ts)
    : M unit :=
  match cs with
  | [] => ret tt
  | c :: rest => v c nextState ;;; visit_each v rest nextState
  end.

End Handlers.
Arguments traversal : clear implicits.
Arguments Handlers : clear implicits.

(** ** Trees laid out in the heap *)

(** [extends h h']: every cell of [h] is still there, unchanged, in [h']. *)
Definition extends (h h' : list cell) : Prop :=
  ∀ l c, h !! l = Some c → h' !! l = Some c.

(** The shape of a query tree: the address of each node, its record, and its
    subtrees in order. *)
Inductive tree :=
| T (l : loc) (n : QueryNode) (ts : list tree).

Definition root (t : tree) : loc := match t with T l _ _ => l end.

Fixpoint depth (t : tree) : nat :=
  match t with
  | T _ _ ts => S (max_list (depth <$> ts))
  end.

Fixpoint nodes (t : tree) : list loc :=
  match t with
  | T l _ ts => l :: mjoin (nodes <$> ts)
  end.

(** [repr h t]: the heap [h] holds the tree [t].  A node that cannot have
    sub-selections has no children. *)
Inductive repr (h : list cell) : tree → Prop :=
| repr_T l n ts :
    h !! l = Some (CNode n) →
    h !! children n = Some (CArr (root <$> ts)) →
    (subselections n = false → ts = []) →
    Forall (repr h) ts →
    repr h (T l n ts).

(** The children a parent keeps when the result of visiting child [i] is [r]
    and every other child is returned as it is. *)
Definition spliced (cs : list loc) (i : nat) (r : option loc) : list loc :=
  omap id (<[i := r]> (Some <$> cs)).

(** [changed_once tgt rep p t]: [tgt] is the node of [t] at path [p] (a list
    of child positions, from the root down), it occurs nowhere else along or
    beside the path, and removing it does not leave its parent childless. *)
Inductive changed_once (tgt : loc) (rep : option loc) : list nat → tree → Prop :=
| changed_here n ts :
    changed_once tgt rep [] (T tgt n ts)
| changed_below i p l n ts c :
    l ≠ tgt →
    ts !! i = Some c →
    changed_once tgt rep p c →
    (∀ j c', j ≠ i → ts !! j = Some c' → tgt ∉ nodes c') →
    (p = [] → spliced (root <$> ts) i rep ≠ []) →
    changed_once tgt rep (i :: p) (T l n ts).

(** [rewritten h0 h rep p t r]: in the heap [h], [r] is the result of
    rewriting [t] along the path [p], the node at the end of [p] being mapped
    to [rep].  Every node on the path is a cell that did not exist in [h0],
    of the same kind and metadata as the original, and its children are the
    original children, by reference, except at the position on the path. *)
Inductive rewritten (h0 h : list cell) (rep : option loc)
    : list nat → tree → option loc → Prop :=
| rewritten_here t :
    rewritten h0 h rep [] t rep
| rewritten_below i p l n ts c r l' a' :
    ts !! i = Some c →
    rewritten h0 h rep p c r →
    length h0 ≤ l' →
    h !! l' = Some (CNode (Node (kind n) (meta n) (subselections n) a')) →
    h !! a' = Some (CArr (spliced (root <$> ts) i r)) →
    rewritten h0 h rep (i :: p) (T l n ts) (Some l').

(** ** What the loop of [traverse] has built

    [rs] lists the results of [visit] on the children [cs] processed so far,
    in order.  [accumulated h0 h cs rs acc] describes the local
    [nextChildren]: it is unset as long as every result is the child itself;
    otherwise it refers to an array that did not exist in [h0] and that holds
    the results that are present, in order. *)
Definition accumulated (h0 h : list cell) (cs : list loc)
    (rs : list (option loc)) (acc : option loc) : Prop :=
  match acc with
  | None => rs = Some <$> cs
  | Some a' =>
      rs ≠ Some <$> cs ∧ length h0 ≤ a' ∧ h !! a' = Some (CArr (omap id rs))
  end.

(** [fresh_acc h0 acc]: the accumulator, once started, is an array that the
    heap [h0] did not have. *)
Definition fresh_acc (h0 : list cell) (acc : option loc) : Prop :=
  ∀ a0, acc = Some a0 → length h0 ≤ a0.

(** [quiet v st]: the visit function [v] makes no call to [clone]. *)
Definition quiet {Ts} (v : traversal Ts) (st : Ts) : Prop :=
  ∀ c s r s', v c st s = Ok r s' → clones s' = clones s.

(** The three ways [traverse] returns from a node [n] at [node] with children
    [cs], the results of visiting them being [rs]; [s] is the store at the
    call and [s'] the store at the return. *)
Inductive outcome (q : Prop) (s s' : store) (node : loc) (n : QueryNode)
    (cs : list loc) (rs : list (option loc)) : option loc → Prop :=
| outcome_kept :
    rs = Some <$> cs →
    (q → clones s' = clones s) →
    outcome q s s' node n cs rs (Some node)
| outcome_removed :
    rs ≠ Some <$> cs →
    omap id rs = [] →
    (q → clones s' = clones s) →
    outcome q s s' node n cs rs None
| outcome_cloned l' a' :
    rs ≠ Some <$> cs →
    omap id rs ≠ [] →
    length (heap s) ≤ l' →
    length (heap s) ≤ a' →
    heap s' !! l' = Some (CNode (Node (kind n) (meta n) (subselections n) a')) →
    heap s' !! a' = Some (CArr (omap id rs)) →
    (q → clones s' = clones s ++ [(node, omap id rs)]) →
    outcome q s s' node n cs rs (Some l').

(** [acts_default H l]: on the node [l], every handler of [H] does what the
    default handler does. *)
Definition acts_default {Ts} (H : Handlers Ts) (l : loc) : Prop :=
  ∀ trav st,
    visitRoot H trav l st = trav l st ∧
    visitFragment H trav l st = trav l st ∧
    visitField H trav l st = trav l st.

(** The nodes along the path [p] in [t], from the root down, the node at the
    end of the path left out. *)
Fixpoint path_nodes (t : tree) (p : list nat) : list loc :=
  match p with
  | [] => []
  | i :: p' =>
      match t with
      | T l _ ts =>
          l :: match ts !! i with
               | Some c => path_nodes c p'
               | None => []
               end
      end
  end.

(** [visited v st h0 c r]: [r] is the result of [v] on the child [c] in some
    store that keeps the cells of [h0]. *)
Definition visited {Ts} (v : traversal Ts) (st : Ts) (h0 : list cell)
    (c : loc) (r : option loc) : Prop :=
  ∃ s1 s', extends h0 (heap s1) ∧ v c st s1 = Ok r s'.

(** ** Small stores used as examples *)

(** A root at 0 whose children, in the array at 1, are the three leaf fields
    at 2, 3 and 4; the leaves share the empty array at 5.  A second root at
    6 has the single child 3, in the array at 7. *)
Definition three_fields : store :=
  Store [ CNode (Node Root 0 true 1); CArr [2; 3; 4];
          CNode (Node Field 1 false 5); CNode (Node Field 2 false 5);
          CNode (Node Field 3 false 5); CArr [];
          CNode (Node Root 4 true 7); CArr [3] ] [].

(** The visit function that returns every node as it is. *)
Definition keep_all : traversal unit := λ c _, ret (Some c).

(** The visit function that deletes the node [b] and keeps the others. *)
Definition delete_node (b : loc) : traversal unit :=
  λ c _, ret (if Nat.eqb c b then None else Some c).

(** The store [three_fields] after [traverse] at the root 0 with the field 3
    deleted. *)
Definition three_fields_pruned : store :=
  Store (heap three_fields ++ [CArr [2; 4]; CNode (Node Root 0 true 8)])
        [(0, [2; 4])].

(** The tree Root[FieldA, FragmentB[FieldC, FieldD]]: the root at 0 with its
    children array at 1, FieldA at 2, FragmentB at 3 with its children array
    at 4, FieldC at 5, FieldD at 6; the leaves share the empty array at 7. *)
Definition nested : store :=
  Store [ CNode (Node Root 0 true 1); CArr [2; 3];
          CNode (Node Field 1 false 7);
          CNode (Node Fragment 2 true 4); CArr [5; 6];
          CNode (Node Field 3 false 7); CNode (Node Field 4 false 7);
          CArr [] ] [].

Definition nested_tree : tree :=
  T 0 (Node Root 0 true 1)
    [ T 2 (Node Field 1 false 7) [];
      T 3 (Node Fragment 2 true 4)
        [ T 5 (Node Field 3 false 7) []; T 6 (Node Field 4 false 7) [] ] ].

(** A root at 0 with the single child 2; the field at 3 has the same record
    as the field at 2 but is another object. *)
Definition twins : store :=
  Store [ CNode (Node Root 0 true 1); CArr [2];
          CNode (Node Field 1 false 4); CNode (Node Field 1 false 4);
          CArr [] ] [].

(** The visit function that maps the node [b] to the node [r] and keeps the
    others. *)
Definition replace_node (b r : loc) : traversal unit :=
  λ c _, ret (Some (if Nat.eqb c b then r else c)).

(** A root at 0 that can have sub-selections and has none. *)
Definition childless : store :=
  Store [ CNode (Node Root 0 true 1); CArr [] ] [].

(** ** The result of [traverse] for a visit without effects

    [traverse_pure f node]: what [traverse] returns at [node] when [visit]
    maps every child [c] to [f c] and leaves the store alone.  It is stuck on
    a reference that is not a node, and on a node that can have
    sub-selections whose children are not an array. *)
Definition traverse_pure (f : loc → option loc) (node : loc) : M (option loc) :=
  λ s,
    match heap s !! node with
    | Some (CNode n) =>
        if negb (subselections n) then Ok (Some node) s else
        match heap s !! children n with
        | Some (CArr cs) =>
            if forallb (λ c, strict_eq (f c) c) cs then Ok (Some node) s
            else
              match omap f cs with
              | [] => Ok None (Store (heap s ++ [CArr []]) (clones s))
              | ys =>
                  Ok (Some (S (length (heap s))))
                     (Store (heap s ++
                               [CArr ys;
                                CNode (Node (kind n) (meta n) (subselections n)
                                         (length (heap s)))])
                            (clones s ++ [(node, ys)]))
              end
        | _ => Stuck
        end
    | _ => Stuck
    end.

(** [only_child_chain tgt d t]: [tgt] is [d] levels below the root of [t],
    and every node above it has exactly one child. *)
Inductive only_child_chain (tgt : loc) : nat → tree → Prop :=
| chain_here n ts :
    only_child_chain tgt 0 (T tgt n ts)
| chain_below d l n c :
    l ≠ tgt →
    only_child_chain tgt d c →
    only_child_chain tgt (S d) (T l n [c]).

(** The tree Root[Fragment[Field]]: the root at 0, the fragment at 2, the
    field at 4. *)
Definition chain : store :=
  Store [ CNode (Node Root 0 true 1); CArr [2];
          CNode (Node Fragment 1 true 3); CArr [4];
          CNode (Node Field 2 false 5); CArr [] ] [].

Definition chain_tree : tree :=
  T 0 (Node Root 0 true 1)
    [ T 2 (Node Fragment 1 true 3) [ T 4 (Node Field 2 false 5) [] ] ].

(** ** The calls of [visit] in a run of the loop *)

(** What the loop of [traverse] does to the store between two calls of
    [visit]: nothing, or [slice] (a new array), or [push] (an array updated
    in place).  The log of [clone] calls is left as it is. *)
Inductive own_step (s1 s2 : store) : Prop :=
| own_none :
    s2 = s1 →
    own_step s1 s2
| own_start xs :
    s2 = Store (heap s1 ++ [CArr xs]) (clones s1) →
    own_step s1 s2
| own_push a xs ys :
    heap s1 !! a = Some (CArr xs) →
    s2 = Store (<[a := CArr ys]> (heap s1)) (clones s1) →
    own_step s1 s2.

(** [visit_run v st s cs rs s']: from the store [s], [v] is called on the
    first child of [cs] and returns; after the loop's own step it is called
    on the next child in the store so reached, and so on through the last
    child; [rs] lists the results and [s'] is the store after the last
    step. *)
Inductive visit_run {Ts} (v : traversal Ts) (st : Ts)
    : store → list loc → list (option loc) → store → Prop :=
| run_nil s :
    visit_run v st s [] [] s
| run_cons s c cs r rs s1 s2 s' :
    v c st s = Ok r s1 →
    own_step s1 s2 →
    visit_run v st s2 cs rs s' →
    visit_run v st s (c :: cs) (r :: rs) s'.

(** How [traverse] ends once the loop has run: [s] is the store at the call,
    [s1] the store the loop leaves, [s'] the store at the return. *)
Inductive run_outcome (s s1 s' : store) (node : loc) (n : QueryNode)
    (cs : list loc) (rs : list (option loc)) : option loc → Prop :=
| run_kept :
    rs = Some <$> cs →
    s' = s1 →
    run_outcome s s1 s' node n cs rs (Some node)
| run_removed :
    rs ≠ Some <$> cs →
    omap id rs = [] →
    s' = s1 →
    run_outcome s s1 s' node n cs rs None
| run_cloned a' :
    rs ≠ Some <$> cs →
    omap id rs ≠ [] →
    length (heap s) ≤ a' →
    heap s1 !! a' = Some (CArr (omap id rs)) →
    s' = Store (heap s1 ++
                  [CNode (Node (kind n) (meta n) (subselections n) a')])
               (clones s1 ++ [(node, omap id rs)]) →
    run_outcome s s1 s' node n cs rs (Some (length (heap s1))).

(** ** Handlers that change one node *)

Section ChangeHandlers.
Context {Ts : Type}.

(** A transform that overrides every handler to run [h] on the node [tgt]
    and to behave as the default elsewhere; [h] does not call [traverse]. *)
Definition changeHandler (tgt : loc) (h : loc → Ts → M (option loc))
    : traversal Ts → loc → Ts → M (option loc) :=
  λ trav node nextState,
    if Nat.eqb node tgt then h node nextState else trav node nextState.

Definition changeAt (tgt : loc) (h : loc → Ts → M (option loc)) : Handlers Ts :=
  {| visitRoot := changeHandler tgt h;
     visitFragment := changeHandler tgt h;
     visitField := changeHandler tgt h |}.

End ChangeHandlers.

(** The handler that replaces its node by a clone of it with the children
    array [arr]. *)
Definition rebuild (arr : loc) : loc → unit → M (option loc) :=
  λ node _, c <- clone node arr ;; ret (Some c).

(** The default [visit]: the dispatch to the default handlers, with [fuel]
    frames of [traverse] below it. *)
Definition default_visit (fuel : nat) : traversal unit :=
  dispatch defaultHandlers (traverse_fuel defaultHandlers fuel).

(** * Properties *)

(** ** The heap *)

Lemma extends_refl h : extends h h.
Proof. by intros l c. Qed.

Lemma extends_trans h1 h2 h3 : extends h1 h2 → extends h2 h3 → extends h1 h3.
Proof. intros H12 H23 l c Hl. by apply H23, H12. Qed.

Lemma extends_length h h' : extends h h' → length h ≤ length h'.
Proof.
  intros Hext. destruct (decide (length h ≤ length h')) as [|Hlt]; [done|].
  assert (Hin : length h' < length h) by lia.
  apply lookup_lt_is_Some in Hin as [c Hc].
  apply Hext, lookup_lt_Some in Hc. lia.
Qed.

Lemma extends_app h k : extends h (h ++ k).
Proof. intros l c Hl. by apply lookup_app_l_Some. Qed.

Lemma extends_insert h0 h a c :
  length h0 ≤ a → extends h0 h → extends h0 (<[a := c]> h).
Proof.
  intros Ha Hext l c' Hl.
  rewrite list_lookup_insert_ne; [by apply Hext|].
  apply lookup_lt_Some in Hl. lia.
Qed.

Lemma insert_snoc (h : list cell) c c' :
  <[length h := c']> (h ++ [c]) = h ++ [c'].
Proof.
  rewrite insert_app_r_alt by lia. by replace (length h - length h) with 0 by lia.
Qed.

Lemma lookup_snoc (h : list cell) c : (h ++ [c]) !! length h = Some c.
Proof. rewrite lookup_app_r by lia. by replace (length h - length h) with 0 by lia. Qed.

(** ** The monad *)

Lemma bind_ok {A B} (m : M A) (k : A → M B) s a s' :
  m s = Ok a s' → bind m k s = k a s'.
Proof. unfold bind. by intros ->. Qed.

Lemma bind_inv {A B} (m : M A) (k : A → M B) s b s' :
  bind m k s = Ok b s' → ∃ a s1, m s = Ok a s1 ∧ k a s1 = Ok b s'.
Proof. unfold bind. destruct (m s) as [a s1| |]; [eauto|done..]. Qed.

Lemma get_node_ok l n s : heap s !! l = Some (CNode n) → get_node l s = Ok n s.
Proof. unfold get_node. by intros ->. Qed.

Lemma get_array_ok a xs s : heap s !! a = Some (CArr xs) → get_array a s = Ok xs s.
Proof. unfold get_array. by intros ->. Qed.

Lemma get_node_inv l n s s' :
  get_node l s = Ok n s' → s' = s ∧ heap s !! l = Some (CNode n).
Proof.
  unfold get_node. destruct (heap s !! l) as [[?|?]|] eqn:E; [|done..].
  by intros [= -> ->].
Qed.

Lemma get_array_inv a xs s s' :
  get_array a s = Ok xs s' → s' = s ∧ heap s !! a = Some (CArr xs).
Proof.
  unfold get_array. destruct (heap s !! a) as [[?|?]|] eqn:E; [done| |done].
  by intros [= -> ->].
Qed.

Lemma array_get_ok a xs i x s :
  heap s !! a = Some (CArr xs) → xs !! i = Some x → array_get a i s = Ok x s.
Proof.
  intros Ha Hx. unfold array_get. rewrite (bind_ok _ _ _ _ _ (get_array_ok _ _ _ Ha)).
  by rewrite Hx.
Qed.

Lemma array_slice0_ok a xs i s :
  heap s !! a = Some (CArr xs) →
  array_slice0 a i s
  = Ok (length (heap s)) (Store (heap s ++ [CArr (take i xs)]) (clones s)).
Proof.
  intros Ha. unfold array_slice0.
  by rewrite (bind_ok _ _ _ _ _ (get_array_ok _ _ _ Ha)).
Qed.

Lemma array_push_ok a xs x s :
  heap s !! a = Some (CArr xs) →
  array_push a x s = Ok tt (Store (<[a := CArr (xs ++ [x])]> (heap s)) (clones s)).
Proof.
  intros Ha. unfold array_push.
  by rewrite (bind_ok _ _ _ _ _ (get_array_ok _ _ _ Ha)).
Qed.

Lemma array_length_ok a xs s :
  heap s !! a = Some (CArr xs) → array_length a s = Ok (length xs) s.
Proof.
  intros Ha. unfold array_length.
  by rewrite (bind_ok _ _ _ _ _ (get_array_ok _ _ _ Ha)).
Qed.

Lemma clone_ok l n a xs s :
  heap s !! l = Some (CNode n) →
  heap s !! a = Some (CArr xs) →
  clone l a s
  = Ok (length (heap s))
       (Store (heap s ++ [CNode (Node (kind n) (meta n) (subselections n) a)])
              (clones s ++ [(l, xs)])).
Proof.
  intros Hl Ha. unfold clone.
  rewrite (bind_ok _ _ _ _ _ (get_node_ok _ _ _ Hl)).
  by rewrite (bind_ok _ _ _ _ _ (get_array_ok _ _ _ Ha)).
Qed.

Lemma canHaveSubselections_ok l n s :
  heap s !! l = Some (CNode n) → canHaveSubselections l s = Ok (subselections n) s.
Proof.
  intros Hl. unfold canHaveSubselections.
  by rewrite (bind_ok _ _ _ _ _ (get_node_ok _ _ _ Hl)).
Qed.

Lemma getChildren_ok l n s :
  heap s !! l = Some (CNode n) → getChildren l s = Ok (children n) s.
Proof.
  intros Hl. unfold getChildren.
  by rewrite (bind_ok _ _ _ _ _ (get_node_ok _ _ _ Hl)).
Qed.

Lemma strict_eq_true r c : strict_eq r c = true ↔ r = Some c.
Proof.
  destruct r as [x|]; simpl; [|done].
  rewrite Nat.eqb_eq. split; [by intros ->|by intros [= ->]].
Qed.

Lemma strict_eq_false r c : strict_eq r c = false ↔ r ≠ Some c.
Proof. rewrite <- strict_eq_true. by destruct (strict_eq r c). Qed.

Section TraverseFacts.
Context {Ts : Type}.
Implicit Types (V : Visitor Ts) (v : traversal Ts) (st : Ts).

(** *** Leaves *)

Lemma traverse_leaf V node st s n :
  heap s !! node = Some (CNode n) →
  subselections n = false →
  traverse V node st s = Ok (Some node) s.
Proof.
  intros Hn Hleaf. unfold traverse.
  rewrite (bind_ok _ _ _ _ _ (canHaveSubselections_ok _ _ _ Hn)).
  by rewrite Hleaf.
Qed.

(** C4 (leaf invariance): on a node that cannot have sub-selections,
    [traverse] returns the node itself, for every state, and leaves the
    store as it was, whatever the visitor's [visit] and [traverseChildren]
    are: neither is called, and nothing is cloned. *)
Theorem leaf_invariance V node st s n :
  heap s !! node = Some (CNode n) →
  subselections n = false →
  traverse V node st s = Ok (Some node) s.
Proof.
  intros Hn Hleaf. unfold traverse.
  assert (Hb : canHaveSubselections node s = Ok false s)
    by (rewrite <- Hleaf; by apply canHaveSubselections_ok).
  by rewrite (bind_ok _ _ _ _ _ Hb).
Qed.

(** *** One iteration of the loop *)

Lemma store_eta s : Store (heap s) (clones s) = s.
Proof. by destruct s. Qed.

Lemma callback_unstarted V st child i a cs c r s s1 :
  heap s !! a = Some (CArr cs) →
  cs !! i = Some c →
  visit V c st s = Ok r s1 →
  heap s1 !! a = Some (CArr cs) →
  callback V st child i a None s
  = if strict_eq r c then Ok None s1
    else Ok (Some (length (heap s1)))
            (Store (heap s1 ++ [CArr (take i cs ++ option_list r)]) (clones s1)).
Proof.
  intros Ha Hc Hv Ha1. unfold callback.
  rewrite (bind_ok _ _ _ _ _ (array_get_ok _ _ _ _ _ Ha Hc)).
  rewrite (bind_ok _ _ _ _ _ Hv).
  destruct (strict_eq r c) eqn:E; simpl; [done|].
  unfold bind at 1. rewrite (bind_ok _ _ _ _ _ (array_slice0_ok _ _ i _ Ha1)).
  simpl. destruct r as [x|]; simpl.
  - unfold bind, array_push, get_array, set_array, bind; simpl.
    rewrite lookup_snoc. simpl. by rewrite insert_snoc.
  - by rewrite app_nil_r.
Qed.

Lemma callback_started V st child i a cs c r s s1 a0 xs :
  heap s !! a = Some (CArr cs) →
  cs !! i = Some c →
  visit V c st s = Ok r s1 →
  heap s1 !! a0 = Some (CArr xs) →
  callback V st child i a (Some a0) s
  = Ok (Some a0)
       (Store (<[a0 := CArr (xs ++ option_list r)]> (heap s1)) (clones s1)).
Proof.
  intros Ha Hc Hv Ha0. unfold callback.
  rewrite (bind_ok _ _ _ _ _ (array_get_ok _ _ _ _ _ Ha Hc)).
  rewrite (bind_ok _ _ _ _ _ Hv).
  assert (Hacc : (if negb (strict_eq r c) then ret (Some a0)
                  else ret (Some a0)) s1 = Ok (Some a0) s1)
    by by destruct (strict_eq r c).
  rewrite (bind_ok _ _ _ _ _ Hacc).
  destruct r as [x|]; simpl.
  - by rewrite (bind_ok _ _ _ _ _ (array_push_ok _ _ x _ Ha0)).
  - rewrite app_nil_r, list_insert_id by done. by rewrite store_eta.
Qed.

(** C5 (accumulator initialization): in the iteration for the child [c] at
    position [i], [r] being the result of [visit] on [c]: if no accumulator
    has been started and [r] is not the reference [c], the accumulator
    becomes a new array holding the original children before position [i],
    followed by [r] if it is present; if no accumulator has been started
    and [r] is [c], none is started; and an accumulator [a0] that has been
    started stays the same array, to which [r] is appended if it is
    present, whether or not [r] differs from [c]. *)
Theorem accumulator_initialization V st child i a cs c r s s1 :
  heap s !! a = Some (CArr cs) →
  cs !! i = Some c →
  visit V c st s = Ok r s1 →
  extends (heap s) (heap s1) →
  (r ≠ Some c →
     callback V st child i a None s
     = Ok (Some (length (heap s1)))
          (Store (heap s1 ++ [CArr (take i cs ++ option_list r)]) (clones s1))) ∧
  (r = Some c → callback V st child i a None s = Ok None s1) ∧
  (∀ a0 xs, heap s !! a0 = Some (CArr xs) →
     callback V st child i a (Some a0) s
     = Ok (Some a0)
          (Store (<[a0 := CArr (xs ++ option_list r)]> (heap s1)) (clones s1))).
Proof.
  intros Ha Hc Hv Hext.
  pose proof (callback_unstarted V st child i a cs c r s s1 Ha Hc Hv
                (Hext _ _ Ha)) as Hcb.
  split_and!.
  - intros Hne%strict_eq_false. by rewrite Hne in Hcb.
  - intros Heq%strict_eq_true. by rewrite Heq in Hcb.
  - intros a0 xs Ha0. eapply callback_started; eauto.
Qed.

(** *** The whole loop *)

Lemma omap_id_Some (xs : list loc) : omap id (Some <$> xs) = xs.
Proof. induction xs as [|x xs IH]; csimpl; [done|]. by rewrite IH. Qed.

Lemma omap_id_snoc (rs : list (option loc)) r :
  omap id (rs ++ [r]) = omap id rs ++ option_list r.
Proof. rewrite omap_app. by destruct r. Qed.

Lemma snoc_results_ne (rs : list (option loc)) (done : list loc) r c :
  length rs = length done →
  rs ≠ Some <$> done ∨ r ≠ Some c →
  rs ++ [r] ≠ Some <$> (done ++ [c]).
Proof.
  intros Hlen Hne Heq. rewrite fmap_app in Heq. simpl in Heq.
  apply app_inj_1 in Heq as [? [= ?]]; [|by rewrite length_fmap].
  destruct Hne; done.
Qed.

Section Loop.
Context (V : Visitor Ts) (st : Ts).
Context (R : loc → option loc → Prop).
Context (h0 : list cell) (a : loc) (cs : list loc).
Hypothesis Harr : h0 !! a = Some (CArr cs).
Hypothesis Hvisit : ∀ c s, c ∈ cs → extends h0 (heap s) →
  ∃ r s', visit V c st s = Ok r s' ∧ extends (heap s) (heap s') ∧ R c r.

Lemma forEachChild_accumulates rest : ∀ done rs acc s,
  cs = done ++ rest →
  extends h0 (heap s) →
  Forall2 R done rs →
  accumulated h0 (heap s) done rs acc →
  ∃ rs' acc' s',
    forEachChild (callback V st) a (length done) rest acc s = Ok acc' s' ∧
    extends h0 (heap s') ∧
    Forall2 R cs rs' ∧
    accumulated h0 (heap s') cs rs' acc' ∧
    (quiet (visit V) st → clones s' = clones s).
Proof using Harr Hvisit.
  induction rest as [|c rest IH]; intros done rs acc s Hcs Hext HR Hacc.
  { rewrite app_nil_r in Hcs. subst done. simpl. by exists rs, acc, s. }
  assert (Hc : cs !! length done = Some c).
  { rewrite Hcs, lookup_app_r by lia.
    by replace (length done - length done) with 0 by lia. }
  assert (Hin : c ∈ cs) by (by eapply list_elem_of_lookup_2).
  destruct (Hvisit c s Hin Hext) as (r & s1 & Hv & Hext1 & Hr).
  assert (Hext01 : extends h0 (heap s1)) by by eapply extends_trans.
  assert (Hlen : length rs = length done)
    by (symmetry; by eapply Forall2_length).
  assert (HR' : Forall2 R (done ++ [c]) (rs ++ [r]))
    by (apply Forall2_app; [done|by constructor]).
  assert (Hcs' : cs = (done ++ [c]) ++ rest) by by rewrite <- app_assoc.
  assert (Hidx : S (length done) = length (done ++ [c]))
    by (rewrite length_app; simpl; lia).
  simpl. destruct acc as [a0|]; simpl in Hacc.
  - destruct Hacc as (Hne & Hfresh & Ha0).
    erewrite bind_ok; last first.
    { eapply callback_started; [by apply Hext, Harr|done|done|].
      by apply Hext1. }
    rewrite Hidx.
    destruct (IH (done ++ [c]) (rs ++ [r]) (Some a0)
      (Store (<[a0 := CArr (omap id rs ++ option_list r)]> (heap s1))
             (clones s1))) as
      (rs' & acc' & s' & Hrun & ? & ? & ? & Hq); [done| |done| |].
    { simpl. by apply extends_insert. }
    { simpl. split_and!; [apply snoc_results_ne; auto|done|].
      rewrite list_lookup_insert_eq by (by eapply lookup_lt_Some, Hext1).
      by rewrite omap_id_snoc. }
    exists rs', acc', s'. split_and!; try done.
    intros Hquiet. rewrite (Hq Hquiet). simpl. by eapply Hquiet.
  - subst rs.
    pose proof (callback_unstarted V st c (length done) a cs c r s s1
      (Hext _ _ Harr) Hc Hv (Hext01 _ _ Harr)) as Hcb.
    destruct (strict_eq r c) eqn:E; rewrite (bind_ok _ _ _ _ _ Hcb), Hidx.
    + apply strict_eq_true in E as ->.
      destruct (IH (done ++ [c]) ((Some <$> done) ++ [Some c]) None s1) as
        (rs' & acc' & s' & Hrun & ? & ? & ? & Hq); [done..| |].
      { simpl. by rewrite fmap_app. }
      exists rs', acc', s'. split_and!; try done.
      intros Hquiet. rewrite (Hq Hquiet). by eapply Hquiet.
    + apply strict_eq_false in E.
      destruct (IH (done ++ [c]) ((Some <$> done) ++ [r])
                   (Some (length (heap s1)))
                   (Store (heap s1 ++ [CArr (take (length done) cs
                                               ++ option_list r)])
                          (clones s1))) as
        (rs' & acc' & s' & Hrun & ? & ? & ? & Hq); [done| |done| |].
      { simpl. eapply extends_trans; [done|apply extends_app]. }
      { simpl. split_and!; [apply snoc_results_ne; auto| |].
        - by apply extends_length.
        - rewrite lookup_snoc, omap_id_snoc, omap_id_Some.
          do 3 f_equal. rewrite Hcs.
          by rewrite take_app_length. }
      exists rs', acc', s'. split_and!; try done.
      intros Hquiet. rewrite (Hq Hquiet). simpl. by eapply Hquiet.
Qed.

End Loop.

(** *** The three outcomes of [traverse] *)

Lemma visitChildren_ok {A} (cb : loc → nat → loc → A → M A) node st n cs acc s :
  heap s !! node = Some (CNode n) →
  heap s !! children n = Some (CArr cs) →
  visitChildren node st cb acc s = forEachChild cb (children n) 0 cs acc s.
Proof.
  intros Hnode Harr. unfold visitChildren.
  rewrite (bind_ok _ _ _ _ _ (getChildren_ok _ _ _ Hnode)).
  by rewrite (bind_ok _ _ _ _ _ (get_array_ok _ _ _ Harr)).
Qed.

Lemma traverse_branch v st s node n cs :
  heap s !! node = Some (CNode n) →
  subselections n = true →
  heap s !! children n = Some (CArr cs) →
  traverse (visitor v) node st s
  = (nextChildren <- forEachChild (callback (visitor v) st) (children n) 0 cs None ;;
     match nextChildren with
     | Some a =>
         len <- array_length a ;;
         if Nat.eqb len 0 then ret None
         else (c <- clone node a ;; ret (Some c))
     | None => ret (Some node)
     end) s.
Proof.
  intros Hnode Hsub Harr. unfold traverse.
  rewrite (bind_ok _ _ _ _ _ (canHaveSubselections_ok _ _ _ Hnode)), Hsub.
  simpl. unfold bind at 1 3.
  by rewrite (visitChildren_ok _ _ _ _ _ _ _ Hnode Harr).
Qed.

Lemma traverse_outcome v st s node n cs (R : loc → option loc → Prop) :
  heap s !! node = Some (CNode n) →
  subselections n = true →
  heap s !! children n = Some (CArr cs) →
  (∀ c s1, c ∈ cs → extends (heap s) (heap s1) →
     ∃ r s', v c st s1 = Ok r s' ∧ extends (heap s1) (heap s') ∧ R c r) →
  ∃ rs res s',
    traverse (visitor v) node st s = Ok res s' ∧
    extends (heap s) (heap s') ∧
    Forall2 R cs rs ∧
    outcome (quiet v st) s s' node n cs rs res.
Proof.
  intros Hnode Hsub Harr Hvisit.
  destruct (forEachChild_accumulates (visitor v) st R (heap s) (children n) cs
              Harr Hvisit cs [] [] None s)
    as (rs & acc & s1 & Hrun & Hext & HR & Hacc & Hq);
    [done|apply extends_refl|constructor|done|].
  simpl in Hrun. exists rs.
  rewrite (traverse_branch _ _ _ _ _ _ Hnode Hsub Harr).
  rewrite (bind_ok _ _ _ _ _ Hrun).
  destruct acc as [a'|]; simpl in Hacc.
  - destruct Hacc as (Hne & Hfresh & Ha').
    rewrite (bind_ok _ _ _ _ _ (array_length_ok _ _ _ Ha')).
    destruct (omap id rs) as [|x xs] eqn:Hxs; simpl.
    + exists None, s1. split_and!; try done. by constructor.
    + rewrite (bind_ok _ _ _ _ _ (clone_ok _ _ _ _ _ (Hext _ _ Hnode) Ha')).
      eexists _, _. split_and!; [done| |done|].
      * simpl. eapply extends_trans; [done|apply extends_app].
      * eapply (outcome_cloned _ _ _ _ _ _ _ (length (heap s1)) a');
          simpl; rewrite ?Hxs; try done.
        -- by apply extends_length.
        -- apply lookup_snoc.
        -- by apply lookup_app_l_Some.
        -- intros Hquiet. by rewrite (Hq Hquiet).
  - exists (Some node), s1. split_and!; try done. by constructor.
Qed.

Lemma traverse_outcome_visited v st s node n cs :
  heap s !! node = Some (CNode n) →
  subselections n = true →
  heap s !! children n = Some (CArr cs) →
  (∀ c s1, c ∈ cs → extends (heap s) (heap s1) →
     ∃ r s', v c st s1 = Ok r s' ∧ extends (heap s1) (heap s')) →
  ∃ rs res s',
    traverse (visitor v) node st s = Ok res s' ∧
    extends (heap s) (heap s') ∧
    Forall2 (visited v st (heap s)) cs rs ∧
    outcome (quiet v st) s s' node n cs rs res.
Proof.
  intros Hnode Hsub Harr Hvisit. apply traverse_outcome; try done.
  intros c s1 Hc Hext. destruct (Hvisit c s1 Hc Hext) as (r & s' & Hv & Hext').
  exists r, s'. split_and!; [done..|]. by exists s1, s'.
Qed.

(** *** When every child comes back as it is *)

Section Identity.
Context (V : Visitor Ts) (st : Ts) (I : store → Prop).
Context (a : loc) (cs : list loc).
Hypothesis Harr : ∀ s, I s → heap s !! a = Some (CArr cs).
Hypothesis Hvisit : ∀ c s, c ∈ cs → I s →
  ∃ s', visit V c st s = Ok (Some c) s' ∧ I s'.

Lemma forEachChild_identity rest : ∀ done s,
  cs = done ++ rest →
  I s →
  ∃ s',
    forEachChild (callback V st) a (length done) rest None s = Ok None s' ∧
    visit_each (visit V) rest st s = Ok tt s' ∧
    I s'.
Proof using Harr Hvisit.
  induction rest as [|c rest IH]; intros done s Hcs HI; [by exists s|].
  assert (Hc : cs !! length done = Some c).
  { rewrite Hcs, lookup_app_r by lia.
    by replace (length done - length done) with 0 by lia. }
  assert (Hin : c ∈ cs) by (by eapply list_elem_of_lookup_2).
  destruct (Hvisit c s Hin HI) as (s1 & Hv & HI1).
  pose proof (callback_unstarted V st c (length done) a cs c (Some c) s s1
    (Harr _ HI) Hc Hv (Harr _ HI1)) as Hcb.
  simpl in Hcb. rewrite Nat.eqb_refl in Hcb.
  destruct (IH (done ++ [c]) s1) as (s' & Hrun & Heach & HI');
    [by rewrite <- app_assoc|done|].
  rewrite length_app, Nat.add_1_r in Hrun.
  exists s'. simpl.
  rewrite (bind_ok _ _ _ _ _ Hcb), (bind_ok _ _ _ _ _ Hv). done.
Qed.

End Identity.

Lemma traverse_identity v st (I : store → Prop) s node n cs :
  heap s !! node = Some (CNode n) →
  subselections n = true →
  (∀ s1, I s1 → heap s1 !! children n = Some (CArr cs)) →
  (∀ c s1, c ∈ cs → I s1 → ∃ s', v c st s1 = Ok (Some c) s' ∧ I s') →
  I s →
  ∃ s', traverse (visitor v) node st s = Ok (Some node) s' ∧
        visit_each v cs st s = Ok tt s' ∧ I s'.
Proof.
  intros Hnode Hsub Harr Hvisit HI.
  destruct (forEachChild_identity (visitor v) st I (children n) cs Harr Hvisit
              cs [] s) as (s' & Hrun & Heach & HI'); [done..|].
  exists s'. rewrite (traverse_branch _ _ _ _ _ _ Hnode Hsub (Harr _ HI)).
  simpl in Hrun. by rewrite (bind_ok _ _ _ _ _ Hrun).
Qed.

Lemma traverse_identity_pure v st s node n cs :
  heap s !! node = Some (CNode n) →
  heap s !! children n = Some (CArr cs) →
  (∀ c, c ∈ cs → v c st s = Ok (Some c) s) →
  traverse (visitor v) node st s = Ok (Some node) s.
Proof.
  intros Hnode Harr Hvisit. destruct (subselections n) eqn:Hsub.
  - destruct (traverse_identity v st (λ s1, s1 = s) s node n cs)
      as (s' & Hrun & _ & ->); try done.
    + by intros ? ->.
    + intros c ? Hc ->. exists s. auto.
  - by eapply traverse_leaf.
Qed.

Lemma visit_each_quiet v st cs : ∀ s s',
  quiet v st → visit_each v cs st s = Ok tt s' → clones s' = clones s.
Proof.
  induction cs as [|c cs IH]; intros s s' Hq; simpl.
  - by intros [= ->].
  - intros (r & s1 & Hv & Hrest)%bind_inv.
    rewrite (IH _ _ Hq Hrest). by eapply Hq.
Qed.

Lemma visit_each_keeps_log v st h0 (all cs : list loc) :
  (∀ c s1, c ∈ all → extends h0 (heap s1) →
     ∃ s', v c st s1 = Ok (Some c) s' ∧ extends (heap s1) (heap s')) →
  (∀ c s1 r s2, c ∈ all → extends h0 (heap s1) →
     v c st s1 = Ok r s2 → clones s2 = clones s1) →
  (∀ c, c ∈ cs → c ∈ all) →
  ∀ s s', extends h0 (heap s) →
    visit_each v cs st s = Ok tt s' → clones s' = clones s.
Proof.
  intros Hvisit Hq. induction cs as [|c cs IH]; intros Hin s s' Hext; simpl.
  - by intros [= ->].
  - intros (r & s1 & Hv & Hrest)%bind_inv.
    assert (Hc : c ∈ all) by (apply Hin; by left).
    destruct (Hvisit c s Hc Hext) as (s1' & Hv' & Hext1).
    assert (s1' = s1) as -> by congruence.
    rewrite (IH (λ x Hx, Hin x (list_elem_of_further _ _ _ Hx)) s1 s');
      [by eapply Hq| |done].
    by eapply extends_trans.
Qed.

(** C1 (identity preservation): if [visit] returns every child of a node as
    the same reference, in every store that keeps the cells of the store at
    the call, then [traverse] returns the node itself, and the store it
    leaves is the one the visits of the children produce on their own:
    [traverse] allocates nothing and does not call [clone], so the log of
    [clone] calls is unchanged if the visits of the children log none.  A
    node without children is the case [cs = []]. *)
Theorem traverse_identity_preservation v st s node n cs :
  heap s !! node = Some (CNode n) →
  heap s !! children n = Some (CArr cs) →
  (∀ c s1, c ∈ cs → extends (heap s) (heap s1) →
     ∃ s', v c st s1 = Ok (Some c) s' ∧ extends (heap s1) (heap s')) →
  ∃ s', traverse (visitor v) node st s = Ok (Some node) s' ∧
        (if subselections n then visit_each v cs st s = Ok tt s' else s' = s) ∧
        ((∀ c s1 r s2, c ∈ cs → extends (heap s) (heap s1) →
            v c st s1 = Ok r s2 → clones s2 = clones s1) →
         clones s' = clones s).
Proof.
  intros Hnode Harr Hvisit. destruct (subselections n) eqn:Hsub.
  - assert (Hkept : ∀ c s1, c ∈ cs → extends (heap s) (heap s1) →
              ∃ s', v c st s1 = Ok (Some c) s' ∧ extends (heap s) (heap s')).
    { intros c s1 Hc Hext. destruct (Hvisit c s1 Hc Hext) as (s' & Hv & Hext').
      exists s'. split; [done|]. by eapply extends_trans. }
    destruct (traverse_identity v st (λ s1, extends (heap s) (heap s1))
                s node n cs Hnode Hsub (λ s1 Hext, Hext _ _ Harr) Hkept
                (extends_refl _)) as (s' & Hrun & Heach & _).
    exists s'. split_and!; [done..|].
    intros Hq.
    apply (visit_each_keeps_log v st (heap s) cs cs Hvisit Hq (λ _ H, H) s s');
      [apply extends_refl|done].
  - exists s. split_and!; [|done..]. by eapply traverse_leaf.
Qed.

End TraverseFacts.

Lemma leaf_invariance_witness :
  traverse (visitor keep_all) 3 tt three_fields = Ok (Some 3) three_fields.
Proof.
  apply (leaf_invariance (visitor keep_all) 3 tt three_fields
           (Node Field 2 false 5)); reflexivity.
Defined.

Lemma accumulator_initialization_witness :
  (None ≠ Some 3 →
     callback (visitor (delete_node 3)) tt 3 1 1 None three_fields
     = Ok (Some 8)
          (Store (heap three_fields ++ [CArr (take 1 [2; 3; 4] ++ option_list None)])
                 [])) ∧
  (None = Some 3 →
     callback (visitor (delete_node 3)) tt 3 1 1 None three_fields
     = Ok None three_fields) ∧
  (∀ a0 xs, heap three_fields !! a0 = Some (CArr xs) →
     callback (visitor (delete_node 3)) tt 3 1 1 (Some a0) three_fields
     = Ok (Some a0)
          (Store (<[a0 := CArr (xs ++ option_list None)]> (heap three_fields)) [])).
Proof.
  apply (accumulator_initialization (visitor (delete_node 3)) tt 3 1 1
           [2; 3; 4] 3 None three_fields three_fields);
    [reflexivity|reflexivity|reflexivity|apply extends_refl].
Defined.

(** Identity is by reference: a result that is another object with the same
    contents as the child counts as a change, and the parent is cloned. *)
Lemma equal_but_distinct_is_a_change :
  heap twins !! 2 = heap twins !! 3 ∧
  traverse (visitor (replace_node 2 3)) 0 tt twins
  = Ok (Some 6)
       (Store (heap twins ++ [CArr [3]; CNode (Node Root 0 true 5)])
              [(0, [3])]).
Proof. split; reflexivity. Qed.

(** A node that can have children and has none comes back as it is. *)
Lemma childless_unchanged :
  traverse (visitor (delete_node 0)) 0 tt childless = Ok (Some 0) childless.
Proof. reflexivity. Qed.

(** ** The run of the loop *)

Section Run.
Context {Ts : Type} (v : traversal Ts) (st : Ts).
Context (h0 : list cell) (a : loc) (cs : list loc).
Hypothesis Harr : h0 !! a = Some (CArr cs).
Hypothesis Hframe : ∀ c s r s',
  c ∈ cs → extends h0 (heap s) → v c st s = Ok r s' →
  extends (heap s) (heap s').

Lemma callback_visit_inv child i c acc s acc' s' :
  heap s !! a = Some (CArr cs) →
  cs !! i = Some c →
  callback (visitor v) st child i a acc s = Ok acc' s' →
  ∃ r s1, v c st s = Ok r s1.
Proof.
  intros Ha Hc Hrun. unfold callback in Hrun.
  rewrite (bind_ok _ _ _ _ _ (array_get_ok _ _ _ _ _ Ha Hc)) in Hrun.
  apply bind_inv in Hrun as (r & s1 & Hv & _). eauto.
Qed.

(** Whenever the loop returns, it has called [visit] on each remaining
    child in turn, each call in the store that the previous call and the
    loop's own step left. *)
Lemma forEachChild_run rest : ∀ seen rs0 acc s acc' s',
  cs = seen ++ rest →
  extends h0 (heap s) →
  length rs0 = length seen →
  accumulated h0 (heap s) seen rs0 acc →
  forEachChild (callback (visitor v) st) a (length seen) rest acc s = Ok acc' s' →
  ∃ rs,
    visit_run v st s rest rs s' ∧
    extends h0 (heap s') ∧
    accumulated h0 (heap s') cs (rs0 ++ rs) acc'.
Proof using Harr Hframe.
  induction rest as [|c rest IH];
    intros seen rs0 acc s acc' s' Hcs Hext Hlen Hacc Hrun.
  { rewrite app_nil_r in Hcs. subst seen. simpl in Hrun.
    injection Hrun as <- <-. exists []. rewrite app_nil_r.
    split_and!; [constructor|done..]. }
  assert (Hc : cs !! length seen = Some c).
  { rewrite Hcs, lookup_app_r by lia. by rewrite Nat.sub_diag. }
  assert (Hin : c ∈ cs) by (by eapply list_elem_of_lookup_2).
  simpl in Hrun. apply bind_inv in Hrun as (acc1 & s2 & Hcb & Hrest).
  destruct (callback_visit_inv _ _ _ _ _ _ _ (Hext _ _ Harr) Hc Hcb)
    as (r & s1 & Hv).
  pose proof (Hframe _ _ _ _ Hin Hext Hv) as Hext1.
  assert (Hext01 : extends h0 (heap s1)) by by eapply extends_trans.
  assert (Hcs' : cs = (seen ++ [c]) ++ rest) by by rewrite <- app_assoc.
  assert (Hlen' : length (rs0 ++ [r]) = length (seen ++ [c]))
    by (rewrite !length_app; simpl; lia).
  specialize (IH (seen ++ [c]) (rs0 ++ [r])).
  replace (S (length seen)) with (length (seen ++ [c])) in Hrest
    by (rewrite length_app; simpl; lia).
  destruct acc as [a0|]; simpl in Hacc.
  - destruct Hacc as (Hne & Hfresh & Ha0).
    rewrite (callback_started (visitor v) st c _ _ _ _ _ _ _ _ _
               (Hext _ _ Harr) Hc Hv (Hext1 _ _ Ha0)) in Hcb.
    injection Hcb as <- <-.
    set (s2 := Store (<[a0 := CArr (omap id rs0 ++ option_list r)]> (heap s1))
                     (clones s1)) in *.
    assert (Hext2 : extends h0 (heap s2)) by by apply extends_insert.
    assert (Hacc2 : accumulated h0 (heap s2) (seen ++ [c]) (rs0 ++ [r]) (Some a0)).
    { simpl. split_and!; [apply snoc_results_ne; auto|done|].
      rewrite list_lookup_insert_eq by (by eapply lookup_lt_Some, Hext1).
      by rewrite omap_id_snoc. }
    destruct (IH _ _ _ _ Hcs' Hext2 Hlen' Hacc2 Hrest)
      as (rs & Hrs & Hext' & Hacc').
    exists (r :: rs). rewrite <- app_assoc in Hacc'.
    split_and!; [|done..].
    eapply run_cons; [done| |done].
    eapply (own_push _ _ a0 (omap id rs0)); [by apply Hext1|done].
  - subst rs0.
    pose proof (callback_unstarted (visitor v) st c (length seen) a cs c r s s1
      (Hext _ _ Harr) Hc Hv (Hext01 _ _ Harr)) as Hcb'.
    rewrite Hcb' in Hcb. destruct (strict_eq r c) eqn:E.
    + apply strict_eq_true in E as ->. injection Hcb as <- <-.
      assert (Hacc2 : accumulated h0 (heap s1) (seen ++ [c])
                        ((Some <$> seen) ++ [Some c]) None)
        by (simpl; by rewrite fmap_app).
      destruct (IH _ _ _ _ Hcs' Hext01 Hlen' Hacc2 Hrest)
        as (rs & Hrs & Hext' & Hacc').
      exists (Some c :: rs). rewrite <- app_assoc in Hacc'.
      split_and!; [|done..].
      eapply run_cons; [done| |done]. by apply own_none.
    + apply strict_eq_false in E. injection Hcb as <- <-.
      set (s2 := Store (heap s1 ++ [CArr (take (length seen) cs ++ option_list r)])
                       (clones s1)) in *.
      assert (Hext2 : extends h0 (heap s2))
        by (eapply extends_trans; [done|apply extends_app]).
      assert (Hacc2 : accumulated h0 (heap s2) (seen ++ [c])
                        ((Some <$> seen) ++ [r]) (Some (length (heap s1)))).
      { simpl. split_and!; [apply snoc_results_ne; auto| |].
        - by apply extends_length.
        - rewrite lookup_snoc, omap_id_snoc, omap_id_Some.
          do 3 f_equal. rewrite Hcs. by rewrite take_app_length. }
      destruct (IH _ _ _ _ Hcs' Hext2 Hlen' Hacc2 Hrest)
        as (rs & Hrs & Hext' & Hacc').
      exists (r :: rs). rewrite <- app_assoc in Hacc'.
      split_and!; [|done..].
      eapply run_cons; [done| |done]. by eapply (own_start _ _ _).
Qed.

End Run.

(** Whenever [traverse] returns from a node that can have sub-selections, it
    has run the loop to its end, and what it did after the loop is one of
    the three endings of [run_outcome]. *)
Lemma traverse_run {Ts} (v : traversal Ts) st s node n cs res s' :
  (∀ c s1 r s2, c ∈ cs → extends (heap s) (heap s1) →
     v c st s1 = Ok r s2 → extends (heap s1) (heap s2)) →
  heap s !! node = Some (CNode n) →
  subselections n = true →
  heap s !! children n = Some (CArr cs) →
  traverse (visitor v) node st s = Ok res s' →
  ∃ rs s1,
    visit_run v st s cs rs s1 ∧
    extends (heap s) (heap s1) ∧
    run_outcome s s1 s' node n cs rs res.
Proof.
  intros Hframe Hnode Hsub Harr Hrun.
  rewrite (traverse_branch _ _ _ _ _ _ Hnode Hsub Harr) in Hrun.
  apply bind_inv in Hrun as (acc & s1 & Hloop & Hrun).
  destruct (forEachChild_run v st (heap s) (children n) cs Harr Hframe
              cs [] [] None s acc s1) as (rs & Hrs & Hext & Hacc);
    [done|apply extends_refl|done|done|done|].
  simpl in Hacc. exists rs, s1. split_and!; [done..|].
  destruct acc as [a'|]; simpl in Hacc.
  - destruct Hacc as (Hne & Hfresh & Ha').
    rewrite (bind_ok _ _ _ _ _ (array_length_ok _ _ _ Ha')) in Hrun.
    destruct (omap id rs) as [|x xs] eqn:Hxs; simpl in Hrun.
    + injection Hrun as <- <-. by constructor.
    + rewrite (bind_ok _ _ _ _ _ (clone_ok _ _ _ _ _ (Hext _ _ Hnode) Ha'))
        in Hrun.
      injection Hrun as <- <-.
      apply (run_cloned _ _ _ _ _ _ _ a'); rewrite ?Hxs; done.
  - injection Hrun as <- <-. by constructor.
Qed.

Section Rewriting.
Context {Ts : Type}.
Implicit Types (v : traversal Ts) (st : Ts).

Lemma visited_det v st h0 c r r' :
  (∀ s1, extends h0 (heap s1) → ∃ s', v c st s1 = Ok r' s') →
  visited v st h0 c r → r = r'.
Proof.
  intros Hv (s1 & s2 & Hext & Hrun). destruct (Hv s1 Hext) as (s' & Hrun').
  congruence.
Qed.

(** C2 (cascading deletion): when [visit] returns nothing for the second of
    three children [A], [B], [C] and returns the other two as they are,
    [traverse] returns a node that did not exist before, of the same kind
    and metadata, whose children are [A] and [C] in that order; and, on its
    own, when [visit] returns nothing for the only child of a node,
    [traverse] returns nothing. *)
Theorem cascading_deletion :
  (∀ v st s node n A B C,
     heap s !! node = Some (CNode n) →
     subselections n = true →
     heap s !! children n = Some (CArr [A; B; C]) →
     (∀ s1, extends (heap s) (heap s1) →
        ∃ s', v A st s1 = Ok (Some A) s' ∧ extends (heap s1) (heap s')) →
     (∀ s1, extends (heap s) (heap s1) →
        ∃ s', v B st s1 = Ok None s' ∧ extends (heap s1) (heap s')) →
     (∀ s1, extends (heap s) (heap s1) →
        ∃ s', v C st s1 = Ok (Some C) s' ∧ extends (heap s1) (heap s')) →
     ∃ l' a' s',
       traverse (visitor v) node st s = Ok (Some l') s' ∧
       l' ≠ node ∧ length (heap s) ≤ l' ∧
       heap s' !! l'
       = Some (CNode (Node (kind n) (meta n) (subselections n) a')) ∧
       heap s' !! a' = Some (CArr [A; C])) ∧
  (∀ v st s node n D,
     heap s !! node = Some (CNode n) →
     subselections n = true →
     heap s !! children n = Some (CArr [D]) →
     (∀ s1, extends (heap s) (heap s1) →
        ∃ s', v D st s1 = Ok None s' ∧ extends (heap s1) (heap s')) →
     ∃ s', traverse (visitor v) node st s = Ok None s').
Proof.
  split.
  - intros v st s node n A B C Hnode Hsub Harr HA HB HC.
    destruct (traverse_outcome_visited v st s node n [A; B; C])
      as (rs & res & s' & Hrun & Hext & HR & Hout); try done.
    { intros c s1 Hc Hext.
      repeat (apply elem_of_cons in Hc as [->|Hc]);
        [destruct (HA s1 Hext) as (s' & ? & ?)
        |destruct (HB s1 Hext) as (s' & ? & ?)
        |destruct (HC s1 Hext) as (s' & ? & ?)
        |by apply elem_of_nil in Hc]; eauto. }
    apply Forall2_cons_inv_l in HR as (rA & rs1 & HrA & HR & ->).
    apply Forall2_cons_inv_l in HR as (rB & rs2 & HrB & HR & ->).
    apply Forall2_cons_inv_l in HR as (rC & rs3 & HrC & HR & ->).
    apply Forall2_nil_inv_l in HR as ->.
    apply (visited_det _ _ _ _ _ (Some A)) in HrA as ->;
      [|intros s1 He; destruct (HA s1 He) as (? & ? & ?); eauto].
    apply (visited_det _ _ _ _ _ None) in HrB as ->;
      [|intros s1 He; destruct (HB s1 He) as (? & ? & ?); eauto].
    apply (visited_det _ _ _ _ _ (Some C)) in HrC as ->;
      [|intros s1 He; destruct (HC s1 He) as (? & ? & ?); eauto].
    inversion Hout as [Heq|? Hnil|l' a' ? ? Hl' ? Hcell Hkids]; subst;
      [done..|].
    exists l', a', s'. split_and!; try done.
    apply lookup_lt_Some in Hnode. lia.
  - intros v st s node n D Hnode Hsub Harr HD.
    destruct (traverse_outcome_visited v st s node n [D])
      as (rs & res & s' & Hrun & Hext & HR & Hout); try done.
    { intros c s1 Hc Hext. apply list_elem_of_singleton in Hc as ->.
      destruct (HD s1 Hext) as (s' & ? & ?). eauto. }
    apply Forall2_cons_inv_l in HR as (rD & rs1 & HrD & HR & ->).
    apply Forall2_nil_inv_l in HR as ->.
    apply (visited_det _ _ _ _ _ None) in HrD as ->;
      [|intros s1 He; destruct (HD s1 He) as (? & ? & ?); eauto].
    inversion Hout as [Heq|? Hnil|l' a' ? Hne]; subst; [done| |done].
    by exists s'.
Qed.

(** C3 (order preservation): whatever the visits of the children are
    guaranteed to return (the relation [R] between a child and its result),
    the children of the node that [traverse] returns are the results that
    are present, one per original child that survives, in the order of the
    original children; [traverse] returns nothing only when no result is
    present. *)
Theorem order_preservation v st s node n cs (R : loc → option loc → Prop) :
  heap s !! node = Some (CNode n) →
  subselections n = true →
  heap s !! children n = Some (CArr cs) →
  (∀ c s1, c ∈ cs → extends (heap s) (heap s1) →
     ∃ r s', v c st s1 = Ok r s' ∧ extends (heap s1) (heap s') ∧ R c r) →
  ∃ rs res s',
    traverse (visitor v) node st s = Ok res s' ∧
    Forall2 R cs rs ∧
    match res with
    | Some l' =>
        ∃ n', heap s' !! l' = Some (CNode n') ∧
              heap s' !! children n' = Some (CArr (omap id rs))
    | None => omap id rs = []
    end.
Proof.
  intros Hnode Hsub Harr Hvisit.
  destruct (traverse_outcome v st s node n cs R)
    as (rs & res & s' & Hrun & Hext & HR & Hout); try done.
  exists rs, res, s'. split_and!; try done.
  inversion Hout as [Heq|? Hnil|l' a' ? ? Hl' ? Hcell Hkids]; subst.
  - exists n. rewrite omap_id_Some. split; by apply Hext.
  - done.
  - by eexists.
Qed.

Lemma own_step_clones s1 s2 : own_step s1 s2 → clones s2 = clones s1.
Proof. by intros [->|xs ->|a xs ys _ ->]. Qed.

Lemma results_absent (rs : list (option loc)) :
  omap id rs = [] → Forall (λ r, r = None) rs.
Proof.
  induction rs as [|[x|] rs IH]; csimpl; intros Hnil; [done..|].
  constructor; auto.
Qed.

(** C10 (clone discipline and result shape): a call of [traverse] on a leaf
    returns the node and leaves the store alone.  On a node that can have
    sub-selections it runs the loop over all the children, the log of
    [clone] calls changing only inside the calls of [visit]
    ([visit_run], [own_step]); then it returns the node it was given, or
    nothing, without a further step, or it calls [clone] exactly once, on
    the node it was given and with a children sequence that is not empty
    (the present results, in order), and returns the clone
    ([run_outcome]).  It returns nothing only when the result of every
    visit was nothing. *)
Theorem clone_discipline v st s node n cs :
  heap s !! node = Some (CNode n) →
  heap s !! children n = Some (CArr cs) →
  (∀ c s1, c ∈ cs → extends (heap s) (heap s1) →
     ∃ r s', v c st s1 = Ok r s' ∧ extends (heap s1) (heap s')) →
  ∃ res s',
    traverse (visitor v) node st s = Ok res s' ∧
    ((subselections n = false ∧ res = Some node ∧ s' = s) ∨
     (subselections n = true ∧
      ∃ rs s1,
        visit_run v st s cs rs s1 ∧
        run_outcome s s1 s' node n cs rs res ∧
        (res = None → Forall (λ r, r = None) rs))).
Proof.
  intros Hnode Harr Hvisit. destruct (subselections n) eqn:Hsub.
  - destruct (traverse_outcome v st s node n cs (λ _ _, True))
      as (rs0 & res & s' & Hrun & _); try done.
    { intros c s1 Hc He. destruct (Hvisit c s1 Hc He) as (r & s2 & ? & ?).
      eauto. }
    exists res, s'. split; [done|]. right. split; [done|].
    destruct (traverse_run v st s node n cs res s') as (rs & s1 & Hrs & _ & Hout);
      try done.
    { intros c s1 r s2 Hc He Hv.
      destruct (Hvisit c s1 Hc He) as (r' & s2' & Hv' & He').
      assert (s2' = s2) as <- by congruence. done. }
    exists rs, s1. split_and!; [done..|].
    intros ->. inversion Hout; subst. by apply results_absent.
  - exists (Some node), s. split; [by eapply traverse_leaf|]. left. auto.
Qed.

End Rewriting.

Lemma delete_node_visit b c s :
  ∃ s', delete_node b c tt s = Ok (if Nat.eqb c b then None else Some c) s' ∧
        extends (heap s) (heap s').
Proof. exists s. split; [reflexivity|apply extends_refl]. Qed.

Lemma delete_node_quiet b : quiet (delete_node b) tt.
Proof. intros c s r s'. unfold delete_node, ret. by intros [= _ ->]. Qed.

Lemma cascading_deletion_witness :
  (∃ l' a' s',
     traverse (visitor (delete_node 3)) 0 tt three_fields = Ok (Some l') s' ∧
     l' ≠ 0 ∧ length (heap three_fields) ≤ l' ∧
     heap s' !! l' = Some (CNode (Node Root 0 true a')) ∧
     heap s' !! a' = Some (CArr [2; 4])) ∧
  (∃ s', traverse (visitor (delete_node 4)) 2 tt chain = Ok None s').
Proof.
  split.
  - apply (proj1 cascading_deletion (delete_node 3) tt three_fields
             0 (Node Root 0 true 1) 2 3 4);
      try reflexivity; intros s1 _; apply delete_node_visit.
  - apply (proj2 cascading_deletion (delete_node 4) tt chain
             2 (Node Fragment 1 true 3) 4);
      try reflexivity; intros s1 _; apply delete_node_visit.
Defined.

Lemma order_preservation_witness :
  ∃ rs res s',
    traverse (visitor (delete_node 3)) 0 tt three_fields = Ok res s' ∧
    Forall2 (λ c r, r = if Nat.eqb c 3 then None else Some c) [2; 3; 4] rs ∧
    match res with
    | Some l' =>
        ∃ n', heap s' !! l' = Some (CNode n') ∧
              heap s' !! children n' = Some (CArr (omap id rs))
    | None => omap id rs = []
    end.
Proof.
  apply (order_preservation (delete_node 3) tt three_fields 0
           (Node Root 0 true 1) [2; 3; 4]); try reflexivity.
  intros c s1 _ _. exists (if Nat.eqb c 3 then None else Some c), s1.
  split_and!; [reflexivity|apply extends_refl|reflexivity].
Defined.

Lemma clone_discipline_witness :
  ∃ res s',
    traverse (visitor (delete_node 3)) 0 tt three_fields = Ok res s' ∧
    ((true = false ∧ res = Some 0 ∧ s' = three_fields) ∨
     (true = true ∧
      ∃ rs s1,
        visit_run (delete_node 3) tt three_fields [2; 3; 4] rs s1 ∧
        run_outcome three_fields s1 s' 0 (Node Root 0 true 1) [2; 3; 4] rs res ∧
        (res = None → Forall (λ r, r = None) rs))).
Proof.
  apply (clone_discipline (delete_node 3) tt three_fields 0
           (Node Root 0 true 1) [2; 3; 4]); try reflexivity.
  intros c s1 _ _. eexists _, s1. split; [reflexivity|apply extends_refl].
Defined.

(** ** The frame of [traverse] *)

Lemma array_get_inv a i x s s' : array_get a i s = Ok x s' → s' = s.
Proof.
  unfold array_get. intros (xs & s1 & [-> _]%get_array_inv & Hx)%bind_inv.
  destruct (xs !! i); [by injection Hx|done].
Qed.

Lemma array_slice0_inv a i l s s' :
  array_slice0 a i s = Ok l s' →
  ∃ xs, l = length (heap s) ∧ s' = Store (heap s ++ [CArr xs]) (clones s).
Proof.
  unfold array_slice0. intros (xs & s1 & [-> _]%get_array_inv & Hx)%bind_inv.
  injection Hx as <- <-. eauto.
Qed.

Lemma array_push_inv a x u s s' :
  array_push a x s = Ok u s' →
  ∃ xs, s' = Store (<[a := CArr xs]> (heap s)) (clones s).
Proof.
  unfold array_push. intros (xs & s1 & [-> _]%get_array_inv & Hx)%bind_inv.
  injection Hx as _ <-. eauto.
Qed.

Lemma array_length_inv a k s s' : array_length a s = Ok k s' → s' = s.
Proof.
  unfold array_length. intros (xs & s1 & [-> _]%get_array_inv & Hx)%bind_inv.
  by injection Hx.
Qed.

Lemma clone_inv l a r s s' :
  clone l a s = Ok r s' →
  ∃ c e, s' = Store (heap s ++ [c]) (clones s ++ [e]).
Proof.
  unfold clone. intros (n & s1 & [-> _]%get_node_inv & Hx)%bind_inv.
  apply bind_inv in Hx as (xs & s1 & [-> _]%get_array_inv & Hx).
  injection Hx as _ <-. simpl. eauto.
Qed.

Lemma canHaveSubselections_inv l b s s' :
  canHaveSubselections l s = Ok b s' → s' = s.
Proof.
  unfold canHaveSubselections.
  intros (n & s1 & [-> _]%get_node_inv & Hx)%bind_inv. by injection Hx.
Qed.

Lemma getChildren_inv l a s s' : getChildren l s = Ok a s' → s' = s.
Proof.
  unfold getChildren.
  intros (n & s1 & [-> _]%get_node_inv & Hx)%bind_inv. by injection Hx.
Qed.

Section Frame.
Context {Ts : Type} (V : Visitor Ts) (st : Ts) (h0 : list cell).
Hypothesis Hvisit : ∀ c s r s',
  visit V c st s = Ok r s' → extends (heap s) (heap s').

Lemma callback_frame child i a acc s acc' s' :
  extends h0 (heap s) → fresh_acc h0 acc →
  callback V st child i a acc s = Ok acc' s' →
  extends h0 (heap s') ∧ fresh_acc h0 acc'.
Proof using Hvisit.
  intros Hext Hacc Hrun. unfold callback in Hrun.
  apply bind_inv in Hrun as (prev & s1 & ->%array_get_inv & Hrun).
  apply bind_inv in Hrun as (r & s2 & Hv%Hvisit & Hrun).
  apply bind_inv in Hrun as (acc1 & s3 & Hinit & Hrun).
  assert (Hext2 : extends h0 (heap s2)) by by eapply extends_trans.
  assert (extends h0 (heap s3) ∧ fresh_acc h0 acc1) as [Hext3 Hacc1].
  { destruct (negb (strict_eq r prev)); [destruct acc as [a0|]|].
    - by injection Hinit as <- <-.
    - apply bind_inv in Hinit as (a1 & s4 & (xs & -> & ->)%array_slice0_inv & Hr).
      injection Hr as <- <-. simpl. split.
      + eapply extends_trans; [done|apply extends_app].
      + intros ? [= <-]. by apply extends_length.
    - by injection Hinit as <- <-. }
  destruct acc1 as [a1|]; [destruct r as [x|]|].
  - apply bind_inv in Hrun as (u & s4 & (xs & ->)%array_push_inv & Hr).
    injection Hr as <- <-. simpl. split; [|done].
    apply extends_insert; [|done]. by apply Hacc1.
  - by injection Hrun as <- <-.
  - by injection Hrun as <- <-.
Qed.

Lemma forEachChild_frame a rest : ∀ i acc s acc' s',
  extends h0 (heap s) → fresh_acc h0 acc →
  forEachChild (callback V st) a i rest acc s = Ok acc' s' →
  extends h0 (heap s') ∧ fresh_acc h0 acc'.
Proof using Hvisit.
  induction rest as [|c rest IH]; intros i acc s acc' s' Hext Hacc; simpl.
  - by intros [= <- <-].
  - intros (acc1 & s1 & Hcb & Hrest)%bind_inv.
    destruct (callback_frame _ _ _ _ _ _ _ Hext Hacc Hcb).
    by eapply IH.
Qed.

End Frame.

Lemma tree_ind' (P : tree → Prop) :
  (∀ l n ts, Forall P ts → P (T l n ts)) → ∀ t, P t.
Proof.
  intros HT. fix IH 1. intros [l n ts]. apply HT.
  induction ts as [|t ts IHts]; constructor; [apply IH|apply IHts].
Qed.

Lemma repr_extends h h' t : extends h h' → repr h t → repr h' t.
Proof.
  intros Hext. induction t as [l n ts IH] using tree_ind'.
  inversion 1 as [? ? ? Hl Ha Hleaf Hts]; subst.
  constructor; [by apply Hext|by apply Hext|done|].
  rewrite Forall_forall in *. auto.
Qed.

Section InputImmutability.
Context {Ts : Type}.

(** C9 (input immutability): provided [visit] changes no cell that exists
    when it is called, neither does [traverse]: when it returns, every node
    and every children array that existed before the call is still there,
    field by field, and every tree the heap held is still held. *)
Theorem input_immutability (v : traversal Ts) st s node res s' :
  (∀ c s1 r s2, v c st s1 = Ok r s2 → extends (heap s1) (heap s2)) →
  traverse (visitor v) node st s = Ok res s' →
  extends (heap s) (heap s') ∧ ∀ t, repr (heap s) t → repr (heap s') t.
Proof.
  intros Hvisit Hrun.
  assert (Hext : extends (heap s) (heap s')); [|by eauto using repr_extends].
  unfold traverse in Hrun.
  apply bind_inv in Hrun as (b & s1 & ->%canHaveSubselections_inv & Hrun).
  destruct (negb b); [injection Hrun as _ <-; apply extends_refl|].
  apply bind_inv in Hrun as (acc & s1 & Hloop & Hrun).
  simpl in Hloop. unfold visitChildren in Hloop.
  apply bind_inv in Hloop as (a & s2 & ->%getChildren_inv & Hloop).
  apply bind_inv in Hloop as (cs & s2 & [-> _]%get_array_inv & Hloop).
  apply (forEachChild_frame (visitor v) st (heap s) Hvisit) in Hloop
    as [Hext1 _]; [|apply extends_refl|done].
  destruct acc as [a'|]; [|by injection Hrun as _ <-].
  apply bind_inv in Hrun as (k & s2 & ->%array_length_inv & Hrun).
  destruct (Nat.eqb k 0); [by injection Hrun as _ <-|].
  apply bind_inv in Hrun as (l' & s2 & (c & e & ->)%clone_inv & Hrun).
  injection Hrun as _ <-. simpl.
  eapply extends_trans; [done|apply extends_app].
Qed.

End InputImmutability.

Lemma delete_node_frame b c s1 r s2 :
  delete_node b c tt s1 = Ok r s2 → extends (heap s1) (heap s2).
Proof. unfold delete_node, ret. intros [= _ <-]. apply extends_refl. Qed.

Lemma input_immutability_witness :
  extends (heap three_fields) (heap three_fields_pruned) ∧
  ∀ t, repr (heap three_fields) t → repr (heap three_fields_pruned) t.
Proof.
  apply (input_immutability (delete_node 3) tt three_fields 0 (Some 9)
           three_fields_pruned);
    [apply delete_node_frame|reflexivity].
Defined.

(** ** The recursion through the default handlers *)

Lemma bind_out_of_fuel {A B} (m : M A) (k : A → M B) s :
  m s = OutOfFuel → bind m k s = OutOfFuel.
Proof. unfold bind. by intros ->. Qed.

Lemma repr_root h t : repr h t → ∃ n, h !! root t = Some (CNode n).
Proof. inversion 1; subst; simpl; eauto. Qed.

Lemma depth_child t ts : t ∈ ts → depth t ≤ max_list (depth <$> ts).
Proof. intros Ht. apply max_list_elem_of_le. by apply list_elem_of_fmap_2. Qed.

Lemma nodes_child t ts x : t ∈ ts → x ∈ nodes t → x ∈ mjoin (nodes <$> ts).
Proof.
  intros Ht Hx. apply list_elem_of_join. exists (nodes t).
  split; [done|by apply list_elem_of_fmap_2].
Qed.

Section Recursion.
Context {Ts : Type}.
Implicit Types (H : Handlers Ts) (st : Ts).

Lemma dispatch_default H (trav : traversal Ts) l n st s :
  heap s !! l = Some (CNode n) →
  acts_default H l →
  dispatch H trav l st s = trav l st s.
Proof.
  intros Hl Hdef. unfold dispatch.
  rewrite (bind_ok _ _ _ _ _ (get_node_ok _ _ _ Hl)).
  destruct (Hdef trav st) as (HR & HF & HL).
  destruct (kind n); by rewrite ?HR, ?HF, ?HL.
Qed.

Lemma acts_default_defaultHandlers l : acts_default (@defaultHandlers Ts) l.
Proof. done. Qed.

(** A subtree on which the handlers act as the default ones comes back as
    it is, and the store is left as it was. *)
Lemma traverse_fuel_clean H t : ∀ fuel st s,
  repr (heap s) t →
  Forall (acts_default H) (nodes t) →
  depth t ≤ fuel →
  traverse_fuel H fuel (root t) st s = Ok (Some (root t)) s.
Proof.
  induction t as [l n ts IH] using tree_ind'.
  intros fuel st s Hrepr Hdef Hdepth.
  inversion Hrepr as [? ? ? Hl Ha Hleaf Hts]; subst.
  rewrite Forall_forall in IH. rewrite Forall_forall in Hts.
  rewrite Forall_forall in Hdef.
  destruct fuel as [|fuel]; [simpl in Hdepth; lia|].
  simpl in Hdepth. simpl traverse_fuel. simpl root.
  apply (traverse_identity_pure _ _ _ _ n (root <$> ts)); [done..|].
  intros c (t & -> & Ht)%list_elem_of_fmap_1.
  destruct (repr_root _ _ (Hts _ Ht)) as [n' Hn'].
  assert (Hnodes : ∀ x, x ∈ nodes t → acts_default H x).
  { intros x Hx. apply Hdef. simpl. right. by eapply nodes_child. }
  simpl visit. rewrite (dispatch_default _ _ _ _ _ _ Hn'); last first.
  { apply Hnodes. destruct t. by left. }
  apply IH; [done|by apply Hts|by apply Forall_forall|].
  pose proof (depth_child _ _ Ht). lia.
Qed.

(** With too little fuel the recursion through the default handlers stops
    short. *)
Lemma traverse_fuel_starved t : ∀ fuel st s,
  repr (heap s) t →
  fuel < depth t →
  traverse_fuel defaultHandlers fuel (root t) st s = OutOfFuel.
Proof.
  induction t as [l n ts IH] using tree_ind'.
  intros fuel st s Hrepr Hlt.
  inversion Hrepr as [? ? ? Hl Ha Hleaf Hts]; subst.
  destruct fuel as [|fuel]; [done|].
  simpl in Hlt. assert (Hfuel : fuel < max_list (depth <$> ts)) by lia.
  assert (Hsub : subselections n = true).
  { destruct (subselections n); [done|]. rewrite Hleaf in Hfuel by done.
    simpl in Hfuel. lia. }
  simpl. rewrite (traverse_branch _ _ _ _ _ _ Hl Hsub Ha).
  apply bind_out_of_fuel.
  set (V := visitor (dispatch defaultHandlers (traverse_fuel defaultHandlers fuel))).
  assert (Hloop : ∀ rest done,
    ts = done ++ rest →
    fuel < max_list (depth <$> rest) →
    forEachChild (callback V st) (children n) (length done) (root <$> rest)
      None s = OutOfFuel).
  { induction rest as [|t rest IHrest]; intros done Hts' Hdeep;
      [simpl in Hdeep; lia|].
    assert (Ht : t ∈ ts).
    { rewrite Hts'. apply elem_of_app. right. by left. }
    rewrite Forall_forall in IH. rewrite Forall_forall in Hts.
    destruct (repr_root _ _ (Hts _ Ht)) as [n' Hn'].
    assert (Hc : (root <$> ts) !! length done = Some (root t)).
    { rewrite Hts', fmap_app, lookup_app_r by (by rewrite length_fmap).
      by rewrite length_fmap, Nat.sub_diag. }
    assert (Hv : visit V (root t) st s
                 = traverse_fuel defaultHandlers fuel (root t) st s)
      by (by apply (dispatch_default _ _ _ n')).
    csimpl. destruct (decide (depth t ≤ fuel)) as [Hle|Hgt].
    - rewrite traverse_fuel_clean in Hv; [|by apply Hts| |done].
      2: { apply Forall_forall. intros; apply acts_default_defaultHandlers. }
      pose proof (callback_unstarted V st (root t) (length done) (children n)
        _ _ _ _ _ Ha Hc Hv Ha) as Hcb.
      simpl in Hcb. rewrite Nat.eqb_refl in Hcb.
      rewrite (bind_ok _ _ _ _ _ Hcb).
      specialize (IHrest (done ++ [t])).
      rewrite length_app, Nat.add_1_r in IHrest. apply IHrest.
      + by rewrite <- app_assoc.
      + csimpl in Hdeep. apply Nat.max_lt_iff in Hdeep as [?|?]; [lia|done].
    - rewrite IH in Hv; [|done|by apply Hts|lia].
      apply bind_out_of_fuel. unfold callback.
      rewrite (bind_ok _ _ _ _ _ (array_get_ok _ _ _ _ _ Ha Hc)).
      by apply bind_out_of_fuel. }
  by apply (Hloop ts []).
Qed.

(** C7 (idempotence under no-op): on a tree held by the heap, the transform
    with the default handlers returns the root it was given and leaves the
    store, hence every node and every children array of the tree, as it
    was; applied to its own result it returns the same reference and the
    same store again. *)
Theorem noop_idempotent t fuel st s :
  repr (heap s) t →
  depth t ≤ fuel →
  traverse_fuel defaultHandlers fuel (root t) st s = Ok (Some (root t)) s ∧
  twice (traverse_fuel defaultHandlers fuel) (root t) st s
  = traverse_fuel defaultHandlers fuel (root t) st s.
Proof.
  intros Hrepr Hfuel.
  assert (Hone : traverse_fuel defaultHandlers fuel (root t) st s
                 = Ok (Some (root t)) s).
  { apply traverse_fuel_clean; [done| |done].
    apply Forall_forall. intros; apply acts_default_defaultHandlers. }
  split; [done|]. unfold twice. by rewrite (bind_ok _ _ _ _ _ Hone).
Qed.

(** C8 (termination and recursion depth): on a tree held by the heap, the
    recursion of [traverse] and [visit] through the default handlers
    returns as soon as it may nest as many [traverse] frames as the tree
    has levels, and it does not return with fewer. *)
Theorem recursion_depth t fuel st s :
  repr (heap s) t →
  (depth t ≤ fuel →
     traverse_fuel defaultHandlers fuel (root t) st s = Ok (Some (root t)) s) ∧
  (fuel < depth t →
     traverse_fuel defaultHandlers fuel (root t) st s = OutOfFuel).
Proof.
  intros Hrepr. split.
  - intros Hfuel. apply traverse_fuel_clean; [done| |done].
    apply Forall_forall. intros; apply acts_default_defaultHandlers.
  - by apply traverse_fuel_starved.
Qed.

End Recursion.

Lemma default_visit_keeps fuel t s :
  repr (heap s) t →
  depth t ≤ fuel →
  default_visit fuel (root t) tt s = Ok (Some (root t)) s.
Proof.
  intros Hrepr Hfuel. destruct (repr_root _ _ Hrepr) as [n Hn].
  unfold default_visit.
  rewrite (dispatch_default _ _ _ _ _ _ Hn (acts_default_defaultHandlers _)).
  apply traverse_fuel_clean; [done| |done].
  apply Forall_forall. intros; apply acts_default_defaultHandlers.
Qed.

Lemma nested_repr : repr (heap nested) nested_tree.
Proof. repeat (constructor; try done). Qed.

(** The default [visit] meets the hypothesis of identity preservation: on
    the root of Root[FieldA, FragmentB[FieldC, FieldD]] each child is visited
    through the dispatch to the default handlers. *)
Lemma traverse_identity_preservation_witness :
  ∃ s', traverse (visitor (default_visit 2)) 0 tt nested = Ok (Some 0) s' ∧
        visit_each (default_visit 2) [2; 3] tt nested = Ok tt s' ∧
        ((∀ c s1 r s2, c ∈ [2; 3] → extends (heap nested) (heap s1) →
            default_visit 2 c tt s1 = Ok r s2 → clones s2 = clones s1) →
         clones s' = clones nested).
Proof.
  apply (traverse_identity_preservation (default_visit 2) tt nested 0
           (Node Root 0 true 1) [2; 3]); [reflexivity..|].
  intros c s1 Hc Hext. exists s1. split; [|apply extends_refl].
  repeat (apply elem_of_cons in Hc as [->|Hc]); [| |by apply elem_of_nil in Hc].
  - apply (default_visit_keeps 2 (T 2 (Node Field 1 false 7) []));
      [|vm_compute; lia].
    apply (repr_extends _ _ _ Hext). repeat (constructor; try done).
  - apply (default_visit_keeps 2
             (T 3 (Node Fragment 2 true 4)
                [T 5 (Node Field 3 false 7) []; T 6 (Node Field 4 false 7) []]));
      [|vm_compute; lia].
    apply (repr_extends _ _ _ Hext). repeat (constructor; try done).
Defined.

Lemma noop_idempotent_witness :
  traverse_fuel defaultHandlers 3 0 tt nested = Ok (Some 0) nested ∧
  twice (traverse_fuel defaultHandlers 3) 0 tt nested
  = traverse_fuel defaultHandlers 3 0 tt nested.
Proof.
  apply (noop_idempotent nested_tree 3 tt nested); [apply nested_repr|].
  vm_compute. lia.
Defined.

Lemma recursion_depth_witness :
  (3 ≤ 3 → traverse_fuel defaultHandlers 3 0 tt nested = Ok (Some 0) nested) ∧
  (3 < 3 → traverse_fuel defaultHandlers 3 0 tt nested = OutOfFuel).
Proof. apply (recursion_depth nested_tree 3 tt nested), nested_repr. Defined.

Lemma recursion_depth_starved_example :
  traverse_fuel defaultHandlers 2 0 tt nested = OutOfFuel ∧
  depth nested_tree = 3.
Proof. split; reflexivity. Qed.

(** ** One changed descendant *)

Lemma spliced_eq cs i c r :
  cs !! i = Some c →
  spliced cs i r = take i cs ++ option_list r ++ drop (S i) cs.
Proof.
  intros Hc. unfold spliced.
  rewrite insert_take_drop by (rewrite length_fmap; by eapply lookup_lt_Some).
  rewrite omap_app, <- fmap_take, <- fmap_drop, omap_id_Some.
  f_equal. destruct r; csimpl; by rewrite omap_id_Some.
Qed.

Lemma spliced_Some_ne_nil cs i c x : cs !! i = Some c → spliced cs i (Some x) ≠ [].
Proof.
  intros Hc. rewrite (spliced_eq _ _ _ _ Hc). simpl.
  by destruct (take i cs).
Qed.

Lemma lookup_snoc2_l (h : list cell) c1 c2 : (h ++ [c1; c2]) !! length h = Some c1.
Proof. rewrite lookup_app_r by lia. by rewrite Nat.sub_diag. Qed.

Lemma lookup_snoc2_r (h : list cell) c1 c2 :
  (h ++ [c1; c2]) !! S (length h) = Some c2.
Proof.
  rewrite lookup_app_r by lia. by replace (S (length h) - length h) with 1 by lia.
Qed.

Section SingleChange.
Context {Ts : Type} (v : traversal Ts) (st : Ts).
Context (s : store) (a : loc) (cs : list loc) (i : nat) (c : loc).
Hypothesis Harr : heap s !! a = Some (CArr cs).
Hypothesis Hc : cs !! i = Some c.
Hypothesis Hothers : ∀ j c' s2,
  j ≠ i → cs !! j = Some c' → extends (heap s) (heap s2) →
  v c' st s2 = Ok (Some c') s2.

(** After the change, every child that comes back as it is gets appended
    to the accumulator. *)
Lemma forEachChild_append a' rest : ∀ done xs s2,
  cs = done ++ rest →
  i < length done →
  extends (heap s) (heap s2) →
  length (heap s) ≤ a' →
  heap s2 !! a' = Some (CArr xs) →
  forEachChild (callback (visitor v) st) a (length done) rest (Some a') s2
  = Ok (Some a') (Store (<[a' := CArr (xs ++ rest)]> (heap s2)) (clones s2)).
Proof using Harr Hothers.
  induction rest as [|c' rest IH]; intros done xs s2 Hcs Hi Hext Hfresh Ha'.
  { simpl. by rewrite app_nil_r, list_insert_id, store_eta. }
  assert (Hc' : cs !! length done = Some c').
  { rewrite Hcs, lookup_app_r by lia. by rewrite Nat.sub_diag. }
  assert (Hv : visit (visitor v) c' st s2 = Ok (Some c') s2)
    by (apply (Hothers (length done)); [lia|done..]).
  simpl forEachChild.
  rewrite (bind_ok _ _ _ _ _
    (callback_started _ _ c' _ _ _ _ _ _ _ _ _ (Hext _ _ Harr) Hc' Hv Ha')).
  specialize (IH (done ++ [c']) (xs ++ [c'])
    (Store (<[a' := CArr (xs ++ option_list (Some c'))]> (heap s2)) (clones s2))).
  rewrite length_app, Nat.add_1_r in IH. etrans; [apply IH|]; simpl.
  - by rewrite <- app_assoc.
  - lia.
  - by apply extends_insert.
  - done.
  - apply list_lookup_insert_eq. by eapply lookup_lt_Some.
  - by rewrite list_insert_insert_eq, <- app_assoc.
Qed.

Context (r : option loc) (s1 : store).
Hypothesis Hchanged : v c st s = Ok r s1.
Hypothesis Hext1 : extends (heap s) (heap s1).
Hypothesis Hne : r ≠ Some c.

(** Before the change every child comes back as it is and the store does
    not move; at the change the accumulator is started. *)
Lemma forEachChild_single_change rest : ∀ done,
  cs = done ++ rest →
  length done ≤ i →
  forEachChild (callback (visitor v) st) a (length done) rest None s
  = Ok (Some (length (heap s1)))
       (Store (heap s1 ++ [CArr (spliced cs i r)]) (clones s1)).
Proof using Harr Hc Hothers Hchanged Hext1 Hne.
  induction rest as [|c' rest IH]; intros done Hcs Hi.
  { rewrite app_nil_r in Hcs. subst done.
    apply lookup_lt_Some in Hc. lia. }
  assert (Hc' : cs !! length done = Some c').
  { rewrite Hcs, lookup_app_r by lia. by rewrite Nat.sub_diag. }
  simpl forEachChild. destruct (decide (length done = i)) as [Heq|Hlt].
  - assert (Hc2 : cs !! length done = Some c) by by rewrite Heq.
    rewrite Hc2 in Hc'. injection Hc' as <-. rewrite <- Heq.
    pose proof (callback_unstarted (visitor v) st c (length done) a cs c r s s1
      Harr Hc2 Hchanged (Hext1 _ _ Harr)) as Hcb.
    apply strict_eq_false in Hne. rewrite Hne in Hcb.
    rewrite (bind_ok _ _ _ _ _ Hcb).
    pose proof (forEachChild_append (length (heap s1)) rest (done ++ [c])
      (take (length done) cs ++ option_list r)
      (Store (heap s1 ++ [CArr (take (length done) cs ++ option_list r)])
             (clones s1))) as Happ.
    rewrite length_app, Nat.add_1_r in Happ. etrans; [apply Happ|]; simpl.
    + by rewrite <- app_assoc.
    + lia.
    + eapply extends_trans; [done|apply extends_app].
    + by apply extends_length.
    + apply lookup_snoc.
    + assert (Hdrop : drop (S (length done)) cs = rest).
      { rewrite Hcs, cons_middle, app_assoc.
        rewrite drop_app_length'; [done|]. rewrite length_app. simpl. lia. }
      by rewrite insert_snoc, (spliced_eq _ _ _ _ Hc2), Hdrop, <- app_assoc.
  - assert (Hv : visit (visitor v) c' st s = Ok (Some c') s)
      by (apply (Hothers (length done)); [lia|done|apply extends_refl]).
    pose proof (callback_unstarted (visitor v) st c' (length done) a cs c'
      (Some c') s s Harr Hc' Hv Harr) as Hcb.
    simpl in Hcb. rewrite Nat.eqb_refl in Hcb.
    rewrite (bind_ok _ _ _ _ _ Hcb).
    specialize (IH (done ++ [c'])).
    rewrite length_app, Nat.add_1_r in IH. apply IH.
    + by rewrite <- app_assoc.
    + lia.
Qed.

End SingleChange.

Section Sharing.
Context {Ts : Type}.
Implicit Types (v : traversal Ts) (st : Ts).

(** When exactly one child changes and the visits of the others leave the
    store alone, [traverse] allocates the new children array and the clone,
    in that order, and nothing else. *)
Lemma traverse_single_change v st s node n cs i c r s1 :
  heap s !! node = Some (CNode n) →
  subselections n = true →
  heap s !! children n = Some (CArr cs) →
  cs !! i = Some c →
  (∀ j c' s2, j ≠ i → cs !! j = Some c' → extends (heap s) (heap s2) →
     v c' st s2 = Ok (Some c') s2) →
  v c st s = Ok r s1 →
  extends (heap s) (heap s1) →
  r ≠ Some c →
  spliced cs i r ≠ [] →
  traverse (visitor v) node st s
  = Ok (Some (S (length (heap s1))))
       (Store (heap s1 ++
                 [CArr (spliced cs i r);
                  CNode (Node (kind n) (meta n) (subselections n)
                           (length (heap s1)))])
              (clones s1 ++ [(node, spliced cs i r)])).
Proof.
  intros Hnode Hsub Harr Hc Hothers Hchanged Hext Hne Hsp.
  rewrite (traverse_branch _ _ _ _ _ _ Hnode Hsub Harr).
  pose proof (forEachChild_single_change v st s (children n) cs i c Harr Hc
    Hothers r s1 Hchanged Hext Hne cs []) as Hloop.
  simpl in Hloop. rewrite (bind_ok _ _ _ _ _ (Hloop eq_refl (Nat.le_0_l _))).
  set (s2 := Store (heap s1 ++ [CArr (spliced cs i r)]) (clones s1)).
  assert (Ha' : heap s2 !! length (heap s1) = Some (CArr (spliced cs i r)))
    by apply lookup_snoc.
  assert (Hnode2 : heap s2 !! node = Some (CNode n))
    by by apply lookup_app_l_Some, Hext.
  assert (Hlen : Nat.eqb (length (spliced cs i r)) 0 = false)
    by (by destruct (spliced cs i r)).
  rewrite (bind_ok _ _ _ _ _ (array_length_ok _ _ _ Ha')), Hlen.
  rewrite (bind_ok _ _ _ _ _ (clone_ok _ _ _ _ _ Hnode2 Ha')).
  simpl. rewrite length_app, <- app_assoc. simpl.
  by rewrite Nat.add_1_r.
Qed.

Lemma rewritten_extends h0 h h' rep p t r :
  extends h h' → rewritten h0 h rep p t r → rewritten h0 h' rep p t r.
Proof.
  intros Hext. induction 1; econstructor; eauto.
Qed.

Lemma acts_default_replaceAt tgt rep l :
  l ≠ tgt → acts_default (@replaceAt Ts tgt rep) l.
Proof.
  intros Hl%Nat.eqb_neq trav st. simpl. unfold replaceHandler.
  by rewrite Hl.
Qed.

Lemma dispatch_replaceAt_target tgt rep (trav : traversal Ts) n st s :
  heap s !! tgt = Some (CNode n) →
  dispatch (replaceAt tgt rep) trav tgt st s = Ok rep s.
Proof.
  intros Hn. unfold dispatch.
  rewrite (bind_ok _ _ _ _ _ (get_node_ok _ _ _ Hn)).
  destruct (kind n); simpl; unfold replaceHandler; by rewrite Nat.eqb_refl.
Qed.

Lemma root_in_nodes t : root t ∈ nodes t.
Proof. destruct t. by left. Qed.

Lemma acts_default_changeAt tgt (h : loc → Ts → M (option loc)) l :
  l ≠ tgt → acts_default (changeAt tgt h) l.
Proof.
  intros Hl%Nat.eqb_neq trav st. simpl. unfold changeHandler.
  by rewrite Hl.
Qed.

Lemma dispatch_changeAt_target tgt (h : loc → Ts → M (option loc))
    (trav : traversal Ts) n st s :
  heap s !! tgt = Some (CNode n) →
  dispatch (changeAt tgt h) trav tgt st s = h tgt st s.
Proof.
  intros Hn. unfold dispatch.
  rewrite (bind_ok _ _ _ _ _ (get_node_ok _ _ _ Hn)).
  destruct (kind n); simpl; unfold changeHandler; by rewrite Nat.eqb_refl.
Qed.

(** C6 (structural sharing), as amended: the handlers run [h] on exactly one
    descendant [tgt], at depth [length p ≥ 1] below the root, and act as the
    default everywhere else; [h] returns [rep], which is not [tgt] (another
    node, or nothing if the parent of [tgt] keeps another child), changes no
    existing cell, and makes the [clone] calls [kh] of its own.  Then
    [traverse] returns a root that did not exist before; after the calls
    [kh] of the handler, [traverse] calls [clone] exactly [length p] times,
    once on each node of the path from the parent of [tgt] up to the root,
    in that order, and nothing else is cloned; every clone has the kind and
    metadata of its original and, by reference, the children of its original
    except at the position on the path; the cells of the input are
    untouched. *)
Theorem structural_sharing tgt (h : loc → Ts → M (option loc)) rep p t :
  changed_once tgt rep p t →
  p ≠ [] →
  rep ≠ Some tgt →
  ∀ fuel st s s1 kh,
    repr (heap s) t →
    depth t ≤ fuel →
    h tgt st s = Ok rep s1 →
    extends (heap s) (heap s1) →
    clones s1 = clones s ++ kh →
    ∃ l' s' k,
      traverse_fuel (changeAt tgt h) fuel (root t) st s = Ok (Some l') s' ∧
      extends (heap s) (heap s') ∧
      clones s' = clones s ++ kh ++ k ∧
      fst <$> k = reverse (path_nodes t p) ∧
      length k = length p ∧
      rewritten (heap s) (heap s') rep p t (Some l').
Proof.
  induction 1 as [n ts|i p l n ts c Hl Hi Hch IH Hsib Hlast];
    intros Hp Hrep fuel st s s1 kh Hrepr Hdepth Hh Hexth Hkh; [done|].
  inversion Hrepr as [? ? ? Hnode Harr Hleaf Hts]; subst.
  rewrite Forall_forall in Hts.
  destruct fuel as [|fuel]; [simpl in Hdepth; lia|]. simpl in Hdepth.
  assert (Hc : c ∈ ts) by by eapply list_elem_of_lookup_2.
  assert (Hsub : subselections n = true).
  { destruct (subselections n); [done|]. rewrite Hleaf in Hi; done. }
  assert (Hci : (root <$> ts) !! i = Some (root c))
    by by rewrite list_lookup_fmap, Hi.
  set (v := dispatch (changeAt tgt h) (traverse_fuel (changeAt tgt h) fuel)).
  assert (Hothers : ∀ j c' s2,
    j ≠ i → (root <$> ts) !! j = Some c' → extends (heap s) (heap s2) →
    v c' st s2 = Ok (Some c') s2).
  { intros j c' s2 Hj Hc' Hext.
    apply list_lookup_fmap_Some_1 in Hc' as (tj & -> & Htj).
    assert (Htj' : tj ∈ ts) by by eapply list_elem_of_lookup_2.
    assert (Hclean : ∀ x, x ∈ nodes tj → acts_default (changeAt tgt h) x).
    { intros x Hx. apply acts_default_changeAt. intros ->.
      by eapply Hsib. }
    pose proof (repr_extends _ _ _ Hext (Hts _ Htj')) as Hrj.
    destruct (repr_root _ _ Hrj) as [nj Hnj].
    unfold v. rewrite (dispatch_default _ _ _ _ _ _ Hnj);
      [|apply Hclean, root_in_nodes].
    apply traverse_fuel_clean; [done|by apply Forall_forall|].
    pose proof (depth_child _ _ Htj'). lia. }
  assert (∃ r s2 k,
    v (root c) st s = Ok r s2 ∧ extends (heap s) (heap s2) ∧
    r ≠ Some (root c) ∧ spliced (root <$> ts) i r ≠ [] ∧
    clones s2 = clones s ++ kh ++ k ∧ fst <$> k = reverse (path_nodes c p) ∧
    length k = length p ∧ rewritten (heap s) (heap s2) rep p c r)
    as (r & s2 & k & Hv & Hext & Hne & Hsp & Hk & Hfst & Hlen & Hrw).
  { destruct (repr_root _ _ (Hts _ Hc)) as [nc Hnc].
    destruct p as [|i0 p0].
    - inversion Hch; subst. simpl in Hnc.
      exists rep, s1, []. split_and!.
      + unfold v. by rewrite (dispatch_changeAt_target _ _ _ _ _ _ Hnc).
      + done.
      + done.
      + by apply Hlast.
      + by rewrite app_nil_r.
      + done.
      + done.
      + constructor.
    - assert (Hdc : depth c ≤ fuel)
        by (pose proof (depth_child _ _ Hc); lia).
      destruct (IH ltac:(done) Hrep fuel st s s1 kh (Hts _ Hc) Hdc Hh Hexth Hkh)
        as (l' & s2 & k & Hrun & Hext & Hk & Hfst & Hlen & Hrw).
      exists (Some l'), s2, k. split_and!; try done.
      + unfold v. rewrite (dispatch_default _ _ _ _ _ _ Hnc); [done|].
        apply acts_default_changeAt. inversion Hch; subst. done.
      + intros [= ->]. inversion Hrw; subst.
        apply lookup_lt_Some in Hnc. simpl in Hnc. lia.
      + by eapply spliced_Some_ne_nil. }
  pose proof (traverse_single_change v st s l n (root <$> ts) i (root c) r s2
    Hnode Hsub Harr Hci Hothers Hv Hext Hne Hsp) as Hrun.
  eexists _, _, (k ++ [(l, spliced (root <$> ts) i r)]).
  split_and!; [exact Hrun|..]; simpl.
  - eapply extends_trans; [done|apply extends_app].
  - by rewrite Hk, <- !app_assoc.
  - by rewrite fmap_app, Hfst, Hi, reverse_cons.
  - rewrite length_app, Hlen. simpl. lia.
  - eapply (rewritten_below _ _ _ _ _ _ _ _ _ _ _ (length (heap s2)));
      [done| | | |].
    + eapply rewritten_extends; [apply extends_app|done].
    + apply extends_length in Hext. lia.
    + apply lookup_snoc2_r.
    + apply lookup_snoc2_l.
Qed.

End Sharing.

Lemma nested_changed_once : changed_once 5 None [1; 0] nested_tree.
Proof.
  eapply (changed_below _ _ 1 [0]); [done|reflexivity| | |done].
  - eapply (changed_below _ _ 0 []); [done|reflexivity|constructor| |done].
    intros [|[|j]] c' Hj Hc'; [done| |done].
    injection Hc' as <-. by intros [?|[]]%list_elem_of_In.
  - intros [|[|j]] c' Hj Hc'; [|done..].
    injection Hc' as <-. by intros [?|[]]%list_elem_of_In.
Qed.

Lemma nested_changed rep : changed_once 5 rep [1; 0] nested_tree.
Proof.
  eapply (changed_below _ _ 1 [0]); [done|reflexivity| | |done].
  - eapply (changed_below _ _ 0 []); [done|reflexivity|constructor| |].
    + intros [|[|j]] c' Hj Hc'; [done| |done].
      injection Hc' as <-. by intros [?|[]]%list_elem_of_In.
    + intros _. by destruct rep.
  - intros [|[|j]] c' Hj Hc'; [|done..].
    injection Hc' as <-. by intros [?|[]]%list_elem_of_In.
Qed.

(** A handler that builds the replacement of FieldC with [clone]: its own
    call of [clone] comes first in the log, followed by the two calls of
    [traverse], on FragmentB and on the root. *)
Lemma structural_sharing_witness :
  ∃ l' s' k,
    traverse_fuel (changeAt 5 (rebuild 7)) 3 (root nested_tree) tt nested
    = Ok (Some l') s' ∧
    extends (heap nested) (heap s') ∧
    clones s' = clones nested ++ [(5, [])] ++ k ∧
    fst <$> k = reverse (path_nodes nested_tree [1; 0]) ∧
    length k = length [1; 0] ∧
    rewritten (heap nested) (heap s') (Some 8) [1; 0] nested_tree (Some l').
Proof.
  apply (structural_sharing 5 (rebuild 7) (Some 8) [1; 0] nested_tree
           (nested_changed (Some 8)) ltac:(done) ltac:(done) 3 tt nested
           (Store (heap nested ++ [CNode (Node Field 3 false 7)]) [(5, [])]));
    [apply nested_repr|vm_compute; lia|reflexivity|apply extends_app
    |reflexivity].
Defined.

Lemma rebuild_example :
  traverse_fuel (changeAt 5 (rebuild 7)) 3 0 tt nested
  = Ok (Some 12)
       (Store (heap nested ++
                 [CNode (Node Field 3 false 7);
                  CArr [8; 6]; CNode (Node Fragment 2 true 9);
                  CArr [2; 10]; CNode (Node Root 0 true 11)])
              [(5, []); (3, [8; 6]); (0, [2; 10])]).
Proof. reflexivity. Qed.

(** C6 as stated fails on the tree Root[FieldA, FragmentB[FieldC, FieldD]]
    with FieldC, at depth 2, deleted: the root and FragmentB are cloned, two
    calls of [clone] and not three. *)
Lemma structural_sharing_counterexample :
  repr (heap nested) nested_tree ∧
  changed_once 5 None [1; 0] nested_tree ∧
  ¬ ∃ l' s',
      traverse_fuel (replaceAt 5 None) 3 (root nested_tree) tt nested
      = Ok (Some l') s' ∧
      length (clones s') = length (clones nested) + (length [1; 0] + 1).
Proof.
  split_and!; [apply nested_repr|apply nested_changed_once|].
  intros (l' & s' & Hrun & Hlen). vm_compute in Hrun.
  injection Hrun as _ <-. simpl in Hlen. lia.
Qed.

Lemma nested_delete_example :
  traverse_fuel (replaceAt 5 None) 3 0 tt nested
  = Ok (Some 11)
       (Store (heap nested ++
                 [CArr [6]; CNode (Node Fragment 2 true 8);
                  CArr [2; 9]; CNode (Node Root 0 true 10)])
              [(3, [6]); (0, [2; 9])]).
Proof. reflexivity. Qed.

(** * Further properties of [traverse] *)

(** ** A visit without effects *)

Lemma omap_cons_option_list (f : loc → option loc) c cs :
  omap f (c :: cs) = option_list (f c) ++ omap f cs.
Proof. csimpl. by destruct (f c). Qed.

Lemma forallb_kept (f : loc → option loc) cs :
  forallb (λ c, strict_eq (f c) c) cs = true → ∀ c, c ∈ cs → f c = Some c.
Proof.
  induction cs as [|c0 cs IH]; simpl; intros Hall c Hc.
  - by apply elem_of_nil in Hc.
  - apply andb_true_iff in Hall as [Hc0%strict_eq_true Hall].
    apply elem_of_cons in Hc as [->|Hc]; auto.
Qed.

Section PureVisit.
Context {Ts : Type} (v : traversal Ts) (st : Ts) (f : loc → option loc).
Hypothesis Hpure : ∀ c s, v c st s = Ok (f c) s.

Lemma forEachChild_pure_started s a cs a' rest : ∀ seen xs,
  cs = seen ++ rest →
  a' ≠ a →
  heap s !! a = Some (CArr cs) →
  ∀ s2,
    heap s2 !! a = Some (CArr cs) →
    heap s2 !! a' = Some (CArr xs) →
    forEachChild (callback (visitor v) st) a (length seen) rest (Some a') s2
    = Ok (Some a')
         (Store (<[a' := CArr (xs ++ omap f rest)]> (heap s2)) (clones s2)).
Proof using Hpure.
  induction rest as [|c rest IH]; intros seen xs Hcs Hne Harr s2 Ha Ha'.
  { simpl. by rewrite app_nil_r, list_insert_id, store_eta. }
  assert (Hc : cs !! length seen = Some c).
  { rewrite Hcs, lookup_app_r by lia. by rewrite Nat.sub_diag. }
  simpl forEachChild.
  rewrite (bind_ok _ _ _ _ _
    (callback_started (visitor v) st c _ _ _ _ _ _ _ _ _ Ha Hc (Hpure c s2) Ha')).
  specialize (IH (seen ++ [c]) (xs ++ option_list (f c))).
  rewrite length_app, Nat.add_1_r in IH. etrans; [apply IH|]; simpl.
  - by rewrite <- app_assoc.
  - done.
  - done.
  - by rewrite list_lookup_insert_ne.
  - apply list_lookup_insert_eq. by eapply lookup_lt_Some.
  - by rewrite list_insert_insert_eq, <- app_assoc, <- omap_cons_option_list.
Qed.

Lemma forEachChild_pure_unstarted s a cs rest : ∀ seen,
  cs = seen ++ rest →
  heap s !! a = Some (CArr cs) →
  forallb (λ c, strict_eq (f c) c) rest = false →
  forEachChild (callback (visitor v) st) a (length seen) rest None s
  = Ok (Some (length (heap s)))
       (Store (heap s ++ [CArr (seen ++ omap f rest)]) (clones s)).
Proof using Hpure.
  induction rest as [|c rest IH]; intros seen Hcs Harr Hall; [done|].
  assert (Hc : cs !! length seen = Some c).
  { rewrite Hcs, lookup_app_r by lia. by rewrite Nat.sub_diag. }
  pose proof (callback_unstarted (visitor v) st c (length seen) a cs c (f c) s s
    Harr Hc (Hpure c s) Harr) as Hcb.
  simpl forEachChild. simpl in Hall.
  destruct (strict_eq (f c) c) eqn:E; rewrite (bind_ok _ _ _ _ _ Hcb).
  - apply strict_eq_true in E. simpl in Hall.
    specialize (IH (seen ++ [c])).
    rewrite length_app, Nat.add_1_r in IH. etrans; [apply IH|]; [|done..|].
    + by rewrite <- app_assoc.
    + by rewrite omap_cons_option_list, E, <- app_assoc.
  - pose proof (forEachChild_pure_started
      (Store (heap s ++ [CArr (take (length seen) cs ++ option_list (f c))])
             (clones s))
      a cs (length (heap s)) rest (seen ++ [c])
      (take (length seen) cs ++ option_list (f c))) as Hrest.
    rewrite length_app, Nat.add_1_r in Hrest.
    rewrite omap_cons_option_list. etrans; [apply Hrest|]; simpl.
    + by rewrite <- app_assoc.
    + apply lookup_lt_Some in Harr. lia.
    + by apply lookup_app_l_Some.
    + by apply lookup_app_l_Some.
    + apply lookup_snoc.
    + rewrite insert_snoc, <- app_assoc.
      by rewrite Hcs, take_app_length.
Qed.

(** On a node that can have sub-selections and whose children are an array,
    [traverse] with a visit without effects is [traverse_pure]. *)
Lemma traverse_pure_branch s node n cs :
  heap s !! node = Some (CNode n) →
  subselections n = true →
  heap s !! children n = Some (CArr cs) →
  traverse (visitor v) node st s = traverse_pure f node s.
Proof using Hpure.
  intros Hnode Hsub Harr. unfold traverse_pure. rewrite Hnode, Hsub, Harr. simpl.
  destruct (forallb (λ c, strict_eq (f c) c) cs) eqn:Hall.
  - apply (traverse_identity_pure _ _ _ _ n cs); [done..|].
    intros c Hc. by rewrite Hpure, (forallb_kept _ _ Hall c Hc).
  - rewrite (traverse_branch _ _ _ _ _ _ Hnode Hsub Harr).
    pose proof (forEachChild_pure_unstarted s (children n) cs cs [] eq_refl
      Harr Hall) as Hloop.
    simpl in Hloop. rewrite (bind_ok _ _ _ _ _ Hloop).
    destruct (omap f cs) as [|y ys] eqn:Hys.
    + assert (Ha' : heap (Store (heap s ++ [CArr []]) (clones s))
                      !! length (heap s) = Some (CArr [])) by apply lookup_snoc.
      by rewrite (bind_ok _ _ _ _ _ (array_length_ok _ _ _ Ha')).
    + set (s2 := Store (heap s ++ [CArr (y :: ys)]) (clones s)).
      assert (Ha' : heap s2 !! length (heap s) = Some (CArr (y :: ys)))
        by apply lookup_snoc.
      assert (Hnode2 : heap s2 !! node = Some (CNode n))
        by by apply lookup_app_l_Some.
      rewrite (bind_ok _ _ _ _ _ (array_length_ok _ _ _ Ha')).
      change (Nat.eqb (length (y :: ys)) 0) with false. cbv iota.
      rewrite (bind_ok _ _ _ _ _ (clone_ok _ _ _ _ _ Hnode2 Ha')).
      subst s2. simpl. rewrite length_app, <- app_assoc, Hsub. simpl.
      by rewrite Nat.add_1_r.
Qed.

(** X1: with a visit that maps every child [c] to [f c] and has no effect on
    the store, [traverse] is the function [traverse_pure]: the node itself
    if it is a leaf or if every child is mapped to itself; otherwise nothing
    if no child is kept (one array is allocated and dropped); otherwise a
    clone, allocated right after its children array, whose children are the
    results that are present, in order.  On a reference that is not a node,
    or a node whose children are not an array, both are stuck. *)
Theorem traverse_is_filter_map s node :
  traverse (visitor v) node st s = traverse_pure f node s.
Proof using Hpure.
  destruct (heap s !! node) as [[n|xs]|] eqn:Hnode.
  - destruct (subselections n) eqn:Hsub.
    + destruct (heap s !! children n) as [[n'|cs]|] eqn:Harr.
      * unfold traverse_pure. rewrite Hnode, Hsub, Harr. simpl.
        unfold traverse.
        rewrite (bind_ok _ _ _ _ _ (canHaveSubselections_ok _ _ _ Hnode)), Hsub.
        simpl. unfold bind at 1, visitChildren.
        rewrite (bind_ok _ _ _ _ _ (getChildren_ok _ _ _ Hnode)).
        unfold bind, get_array. by rewrite Harr.
      * by apply (traverse_pure_branch _ _ n cs).
      * unfold traverse_pure. rewrite Hnode, Hsub, Harr. simpl.
        unfold traverse.
        rewrite (bind_ok _ _ _ _ _ (canHaveSubselections_ok _ _ _ Hnode)), Hsub.
        simpl. unfold bind at 1, visitChildren.
        rewrite (bind_ok _ _ _ _ _ (getChildren_ok _ _ _ Hnode)).
        unfold bind, get_array. by rewrite Harr.
    + unfold traverse_pure. rewrite Hnode, Hsub. simpl.
      by apply (traverse_leaf _ _ _ _ n).
  - unfold traverse_pure, traverse, canHaveSubselections, bind, get_node.
    by rewrite Hnode.
  - unfold traverse_pure, traverse, canHaveSubselections, bind, get_node.
    by rewrite Hnode.
Qed.

End PureVisit.

Lemma traverse_is_filter_map_witness :
  traverse (visitor (delete_node 3)) 0 tt three_fields
  = traverse_pure (λ c, if Nat.eqb c 3 then None else Some c) 0 three_fields.
Proof.
  apply (traverse_is_filter_map (delete_node 3) tt
           (λ c, if Nat.eqb c 3 then None else Some c)).
  intros c s. reflexivity.
Defined.

Lemma traverse_ok_inv {Ts} (v : traversal Ts) st s node r s' :
  traverse (visitor v) node st s = Ok r s' →
  ∃ n, heap s !! node = Some (CNode n) ∧
       (subselections n = true →
        ∃ cs, heap s !! children n = Some (CArr cs)).
Proof.
  unfold traverse. intros (b & s1 & Hb & Hrun)%bind_inv.
  unfold canHaveSubselections in Hb.
  apply bind_inv in Hb as (n & s2 & [-> Hnode]%get_node_inv & [= <- <-]).
  exists n. split; [done|]. intros Hsub. rewrite Hsub in Hrun. simpl in Hrun.
  apply bind_inv in Hrun as (acc & s2 & Hloop & _).
  unfold visitChildren, getChildren in Hloop.
  apply bind_inv in Hloop as (a & s3 & Ha & Hloop).
  apply bind_inv in Ha as (n' & s4 & [-> Hnode']%get_node_inv & [= <- <-]).
  apply bind_inv in Hloop as (cs & s4 & [-> Harr]%get_array_inv & _).
  exists cs. congruence.
Qed.

Section Filter.
Context {Ts : Type} (v : traversal Ts) (st : Ts) (f : loc → option loc).
Hypothesis Hpure : ∀ c s, v c st s = Ok (f c) s.
Hypothesis Hidem : ∀ c y, f c = Some y → f y = Some y.

(** X2: a visit without effects that maps every node it keeps or produces to
    itself is idempotent through [traverse]: running [traverse] on the node
    it returned returns that node again and leaves the store as the first
    run left it; when the first run is stuck or returns nothing, so does
    the pair. *)
Theorem filter_idempotent s node :
  twice (traverse (visitor v)) node st s = traverse (visitor v) node st s.
Proof using Hpure Hidem.
  unfold twice.
  destruct (traverse (visitor v) node st s) as [[l'|] s'| |] eqn:E;
    [|by rewrite (bind_ok _ _ _ _ _ E)|unfold bind; by rewrite E..].
  rewrite (bind_ok _ _ _ _ _ E).
  destruct (traverse_ok_inv _ _ _ _ _ _ E) as (n & Hnode & Hkids).
  destruct (subselections n) eqn:Hsub.
  - destruct (Hkids eq_refl) as [cs Harr].
    rewrite (traverse_pure_branch v st f Hpure s node n cs Hnode Hsub Harr) in E.
    unfold traverse_pure in E. rewrite Hnode, Hsub, Harr in E. simpl in E.
    destruct (forallb (λ c, strict_eq (f c) c) cs) eqn:Hall.
    + injection E as <- <-.
      apply (traverse_identity_pure _ _ _ _ n cs); [done..|].
      intros c Hc. by rewrite Hpure, (forallb_kept _ _ Hall c Hc).
    + destruct (omap f cs) as [|y ys] eqn:Hys; [done|].
      injection E as <- <-.
      eapply (traverse_identity_pure _ _ _ _ _ (y :: ys)).
      * apply lookup_snoc2_r.
      * apply lookup_snoc2_l.
      * intros c Hc. rewrite Hpure. f_equal.
        rewrite <- Hys in Hc. apply list_elem_of_omap in Hc as (x & _ & Hx).
        by eapply Hidem.
  - rewrite (traverse_leaf _ _ _ _ _ Hnode Hsub) in E. injection E as <- <-.
    by apply (traverse_leaf _ _ _ _ n).
Qed.

End Filter.

Lemma filter_idempotent_witness :
  twice (traverse (visitor (delete_node 3))) 0 tt three_fields
  = traverse (visitor (delete_node 3)) 0 tt three_fields.
Proof.
  apply (filter_idempotent (delete_node 3) tt
           (λ c, if Nat.eqb c 3 then None else Some c)).
  - intros c s. reflexivity.
  - intros c y. destruct (Nat.eqb c 3) eqn:E; [done|].
    intros [= <-]. by rewrite E.
Defined.

Lemma results_all_present (R : loc → loc → Prop) cs rs :
  Forall2 (λ c r, ∃ y, r = Some y ∧ R c y) cs rs →
  ∃ ys, rs = Some <$> ys ∧ Forall2 R cs ys.
Proof.
  induction 1 as [|c r cs rs (y & -> & Hy) _ (ys & -> & Hys)].
  - by exists [].
  - exists (y :: ys). split; [done|by constructor].
Qed.


Section Outcomes.
Context {Ts : Type}.
Implicit Types (v : traversal Ts) (st : Ts).


(** X4: when no visit returns nothing, [traverse] is a map over the
    children: it returns a node of the same kind and metadata whose
    children array has one entry per original child, the entry at each
    position being the result of visiting the child at that position. *)
Theorem no_deletion_is_a_map v st s node n cs (R : loc → loc → Prop) :
  heap s !! node = Some (CNode n) →
  subselections n = true →
  heap s !! children n = Some (CArr cs) →
  (∀ c s1, c ∈ cs → extends (heap s) (heap s1) →
     ∃ y s', v c st s1 = Ok (Some y) s' ∧ extends (heap s1) (heap s') ∧ R c y) →
  ∃ l' n' ys s',
    traverse (visitor v) node st s = Ok (Some l') s' ∧
    heap s' !! l' = Some (CNode n') ∧
    kind n' = kind n ∧ meta n' = meta n ∧
    heap s' !! children n' = Some (CArr ys) ∧
    Forall2 R cs ys.
Proof.
  intros Hnode Hsub Harr Hvisit.
  destruct (traverse_outcome v st s node n cs (λ c r, ∃ y, r = Some y ∧ R c y))
    as (rs & res & s' & Hrun & Hext & HR & Hout); try done.
  { intros c s1 Hc He. destruct (Hvisit c s1 Hc He) as (y & s' & ? & ? & ?).
    exists (Some y), s'. eauto. }
  destruct (results_all_present _ _ _ HR) as (ys & -> & Hys).
  inversion Hout as [Heq|Hne Hnil|l' a' ? ? Hl' ? Hcell Hkids]; subst.
  - apply (inj (fmap Some)) in Heq as ->.
    exists node, n, cs, s'. split_and!; auto.
  - exfalso. rewrite omap_id_Some in Hnil. subst ys.
    by apply Forall2_nil_inv_r in Hys as ->.
  - rewrite omap_id_Some in Hkids.
    eexists l', _, ys, s'. split_and!; eauto.
Qed.

(** X5: the children array of a clone returned by [traverse] is an array
    that did not exist before the call, so it is not the array of the
    original node, and the original node and its array still read as
    before. *)
Theorem clone_has_its_own_array v st s node n cs :
  heap s !! node = Some (CNode n) →
  subselections n = true →
  heap s !! children n = Some (CArr cs) →
  (∀ c s1, c ∈ cs → extends (heap s) (heap s1) →
     ∃ r s', v c st s1 = Ok r s' ∧ extends (heap s1) (heap s')) →
  ∃ res s',
    traverse (visitor v) node st s = Ok res s' ∧
    heap s' !! node = Some (CNode n) ∧
    heap s' !! children n = Some (CArr cs) ∧
    ∀ l', res = Some l' → l' ≠ node →
      ∃ n', heap s' !! l' = Some (CNode n') ∧
            length (heap s) ≤ children n' ∧
            children n' ≠ children n ∧
            children n' ≠ l'.
Proof.
  intros Hnode Hsub Harr Hvisit.
  destruct (traverse_outcome v st s node n cs (λ _ _, True))
    as (rs & res & s' & Hrun & Hext & HR & Hout); try done.
  { intros c s1 Hc He. destruct (Hvisit c s1 Hc He) as (r & s' & ? & ?). eauto. }
  exists res, s'. split_and!; [done|by apply Hext..|].
  intros l' -> Hl'.
  inversion Hout as [Heq| |? a' ? ? ? Ha' Hcell Hkids]; subst; [done|].
  eexists. split; [done|]. simpl. split_and!; [done| |].
  - apply lookup_lt_Some in Harr. lia.
  - intros ->. congruence.
Qed.

End Outcomes.


Lemma no_deletion_is_a_map_witness :
  ∃ l' n' ys s',
    traverse (visitor (replace_node 2 3)) 0 tt twins = Ok (Some l') s' ∧
    heap s' !! l' = Some (CNode n') ∧
    kind n' = Root ∧ meta n' = 0 ∧
    heap s' !! children n' = Some (CArr ys) ∧
    Forall2 (λ c y, y = if Nat.eqb c 2 then 3 else c) [2] ys.
Proof.
  apply (no_deletion_is_a_map (replace_node 2 3) tt twins 0
           (Node Root 0 true 1) [2]); [reflexivity..|].
  intros c s1 _ _. exists (if Nat.eqb c 2 then 3 else c), s1.
  split_and!; [reflexivity|apply extends_refl|reflexivity].
Defined.

Lemma clone_has_its_own_array_witness :
  ∃ res s',
    traverse (visitor (delete_node 3)) 0 tt three_fields = Ok res s' ∧
    heap s' !! 0 = Some (CNode (Node Root 0 true 1)) ∧
    heap s' !! 1 = Some (CArr [2; 3; 4]) ∧
    ∀ l', res = Some l' → l' ≠ 0 →
      ∃ n', heap s' !! l' = Some (CNode n') ∧
            length (heap three_fields) ≤ children n' ∧
            children n' ≠ 1 ∧
            children n' ≠ l'.
Proof.
  apply (clone_has_its_own_array (delete_node 3) tt three_fields 0
           (Node Root 0 true 1) [2; 3; 4]); [reflexivity..|].
  intros c s1 _ _. eexists _, s1. split; [reflexivity|apply extends_refl].
Defined.

(** ** Which calls of [visit] a call of [traverse] makes *)

Lemma bind_ext_l {A B} (m m' : M A) (k : A → M B) s :
  m s = m' s → bind m k s = bind m' k s.
Proof. unfold bind. by intros ->. Qed.

Lemma bind_ext {A B} (m m' : M A) (k k' : A → M B) s :
  m s = m' s →
  (∀ x s1, m s = Ok x s1 → k x s1 = k' x s1) →
  bind m k s = bind m' k' s.
Proof.
  unfold bind. intros <- Hk. destruct (m s) as [x s1| |]; [|done..].
  by apply Hk.
Qed.

Section Calls.
Context {Ts : Type} (v : traversal Ts) (st : Ts).
Context (h0 : list cell) (a : loc) (cs : list loc).
Hypothesis Harr : h0 !! a = Some (CArr cs).
Hypothesis Hframe : ∀ c s r s',
  visit (visitor v) c st s = Ok r s' → extends (heap s) (heap s').

Context (v' : traversal Ts).
Hypothesis Hagree : ∀ c s, c ∈ cs → v c st s = v' c st s.

Lemma forEachChild_ext rest : ∀ seen acc s,
  cs = seen ++ rest →
  extends h0 (heap s) →
  fresh_acc h0 acc →
  forEachChild (callback (visitor v) st) a (length seen) rest acc s
  = forEachChild (callback (visitor v') st) a (length seen) rest acc s.
Proof using Harr Hframe Hagree.
  induction rest as [|c rest IH]; intros seen acc s Hcs Hext Hacc; [done|].
  assert (Hc : cs !! length seen = Some c).
  { rewrite Hcs, lookup_app_r by lia. by rewrite Nat.sub_diag. }
  assert (Hcb : callback (visitor v) st c (length seen) a acc s
                = callback (visitor v') st c (length seen) a acc s).
  { unfold callback.
    rewrite !(bind_ok _ _ _ _ _ (array_get_ok _ _ _ _ _ (Hext _ _ Harr) Hc)).
    apply bind_ext_l. simpl. apply Hagree. by eapply list_elem_of_lookup_2. }
  simpl forEachChild. apply bind_ext; [done|]. intros acc1 s1 E.
  destruct (callback_frame (visitor v) st h0 Hframe _ _ _ _ _ _ _ Hext Hacc E)
    as [Hext1 Hacc1].
  specialize (IH (seen ++ [c])). rewrite length_app, Nat.add_1_r in IH.
  apply IH; [by rewrite <- app_assoc|done..].
Qed.

End Calls.

Section CallsOfVisit.
Context {Ts : Type}.
Implicit Types (v : traversal Ts) (st : Ts).

Lemma visit_run_length v st s cs rs s' :
  visit_run v st s cs rs s' → length rs = length cs.
Proof. induction 1; simpl; auto. Qed.

(** X6: [traverse] has no early exit and swallows no failure of [visit]:
    whenever it returns from a node that can have sub-selections, its loop
    has called [visit] on every child, in order, the first call in the
    store of the call of [traverse] and each later call in the store that
    the previous call and the loop's own array step left, and every one of
    these calls has returned. *)
Theorem returns_only_after_every_visit v st s node n cs res s' :
  (∀ c s1 r s2, c ∈ cs → extends (heap s) (heap s1) →
     v c st s1 = Ok r s2 → extends (heap s1) (heap s2)) →
  heap s !! node = Some (CNode n) →
  subselections n = true →
  heap s !! children n = Some (CArr cs) →
  traverse (visitor v) node st s = Ok res s' →
  ∃ rs s1,
    visit_run v st s cs rs s1 ∧
    length rs = length cs ∧
    (s' = s1 ∨ ∃ c, s' = Store (heap s1 ++ [c]) (clones s1 ++ [(node, omap id rs)])).
Proof.
  intros Hframe Hnode Hsub Harr Hrun.
  destruct (traverse_run v st s node n cs res s' Hframe Hnode Hsub Harr Hrun)
    as (rs & s1 & Hrs & _ & Hout).
  exists rs, s1. split_and!; [done|by eapply visit_run_length|].
  inversion Hout; subst; eauto.
Qed.

(** X7: [traverse] calls [visit] on the children of its node and with the
    state it was given, and on nothing else: two visit functions that agree
    on the children at that state give the same result and the same
    store. *)
Theorem visits_children_only v v' st s node n cs :
  (∀ c s1 r s2, v c st s1 = Ok r s2 → extends (heap s1) (heap s2)) →
  heap s !! node = Some (CNode n) →
  subselections n = true →
  heap s !! children n = Some (CArr cs) →
  (∀ c s1, c ∈ cs → v c st s1 = v' c st s1) →
  traverse (visitor v) node st s = traverse (visitor v') node st s.
Proof.
  intros Hframe Hnode Hsub Harr Hagree.
  rewrite !(traverse_branch _ _ _ _ _ _ Hnode Hsub Harr).
  apply bind_ext_l.
  apply (forEachChild_ext v st (heap s) (children n) cs Harr Hframe v' Hagree
           cs [] None s); [done|apply extends_refl|done].
Qed.

End CallsOfVisit.

Lemma delete_node_frame_on b (cs : list loc) (h0 : list cell) c s1 r s2 :
  c ∈ cs → extends h0 (heap s1) →
  delete_node b c tt s1 = Ok r s2 → extends (heap s1) (heap s2).
Proof. intros _ _. apply delete_node_frame. Qed.

Lemma returns_only_after_every_visit_witness :
  ∃ rs s1,
    visit_run (delete_node 3) tt three_fields [2; 3; 4] rs s1 ∧
    length rs = length [2; 3; 4] ∧
    (three_fields_pruned = s1 ∨
     ∃ c, three_fields_pruned
          = Store (heap s1 ++ [c]) (clones s1 ++ [(0, omap id rs)])).
Proof.
  apply (returns_only_after_every_visit (delete_node 3) tt three_fields 0
           (Node Root 0 true 1) [2; 3; 4] (Some 9) three_fields_pruned);
    [apply delete_node_frame_on|reflexivity..].
Defined.

Lemma visits_children_only_witness :
  traverse (visitor (delete_node 3)) 0 tt three_fields
  = traverse
      (visitor (λ c _, ret (if Nat.eqb c 3 then None
                            else if Nat.ltb c 5 then Some c else None)))
      0 tt three_fields.
Proof.
  apply (visits_children_only (delete_node 3) _ tt three_fields 0
           (Node Root 0 true 1) [2; 3; 4]);
    [apply delete_node_frame|reflexivity..|].
  intros c s1 Hc.
  repeat (apply elem_of_cons in Hc as [->|Hc]); try reflexivity.
  by apply elem_of_nil in Hc.
Defined.

(** ** Deletion cascading through only children *)

Section Cascade.
Context {Ts : Type}.
Implicit Types (v : traversal Ts) (st : Ts).

Lemma traverse_only_child_deleted v st s node n c s1 :
  heap s !! node = Some (CNode n) →
  subselections n = true →
  heap s !! children n = Some (CArr [c]) →
  v c st s = Ok None s1 →
  extends (heap s) (heap s1) →
  traverse (visitor v) node st s
  = Ok None (Store (heap s1 ++ [CArr []]) (clones s1)).
Proof.
  intros Hnode Hsub Harr Hv Hext.
  rewrite (traverse_branch _ _ _ _ _ _ Hnode Hsub Harr). simpl forEachChild.
  pose proof (callback_unstarted (visitor v) st c 0 (children n) [c] c None s s1
    Harr eq_refl Hv (Hext _ _ Harr)) as Hcb.
  simpl in Hcb. unfold bind at 1. rewrite (bind_ok _ _ _ _ _ Hcb).
  assert (Ha' : heap (Store (heap s1 ++ [CArr []]) (clones s1))
                  !! length (heap s1) = Some (CArr [])) by apply lookup_snoc.
  unfold ret at 1. by rewrite (bind_ok _ _ _ _ _ (array_length_ok _ _ _ Ha')).
Qed.

(** X8: when the handlers delete a node [tgt] that is the only child of its
    parent, every ancestor up to the root of the traversal being an only
    child as well, [traverse] at the root returns nothing: the deletion
    cascades through all [d] levels, [clone] is never called, each level
    allocates one empty array and drops it, and the subtree below [tgt] is
    not entered ([d] nested frames are enough). *)
Theorem deletion_cascades_to_root tgt d t :
  only_child_chain tgt d t →
  1 ≤ d →
  ∀ fuel st s,
    repr (heap s) t →
    d ≤ fuel →
    traverse_fuel (replaceAt tgt None) fuel (root t) st s
    = Ok None (Store (heap s ++ replicate d (CArr [])) (clones s)).
Proof.
  induction 1 as [n ts|d l n c Hl Hch IH]; intros Hd fuel st s Hrepr Hfuel;
    [lia|].
  inversion Hrepr as [? ? ? Hnode Harr Hleaf Hts]; subst.
  apply Forall_cons in Hts as [Hc _].
  destruct fuel as [|fuel]; [lia|].
  assert (Hsub : subselections n = true)
    by (destruct (subselections n); [done|by specialize (Hleaf eq_refl)]).
  destruct (repr_root _ _ Hc) as [nc Hnc].
  simpl traverse_fuel. simpl root.
  set (v := dispatch (@replaceAt Ts tgt None)
              (traverse_fuel (replaceAt tgt None) fuel)).
  assert (Hv : v (root c) st s
               = Ok None (Store (heap s ++ replicate d (CArr [])) (clones s))).
  { destruct d as [|d].
    - inversion Hch; subst. simpl in *.
      unfold v. rewrite (dispatch_replaceAt_target _ _ _ _ _ _ Hnc).
      by rewrite app_nil_r, store_eta.
    - unfold v. rewrite (dispatch_default _ _ _ _ _ _ Hnc).
      + apply IH; [lia|done|lia].
      + apply acts_default_replaceAt. inversion Hch; subst. done. }
  rewrite (traverse_only_child_deleted v st s l n (root c) _ Hnode Hsub Harr Hv
             (extends_app _ _)).
  simpl. by rewrite <- app_assoc, <- replicate_S_end.
Qed.

End Cascade.

Lemma chain_only_child : only_child_chain 4 2 chain_tree.
Proof. repeat (constructor; try done). Qed.

Lemma chain_repr : repr (heap chain) chain_tree.
Proof. repeat (constructor; try done). Qed.

Lemma deletion_cascades_to_root_witness :
  traverse_fuel (replaceAt 4 None) 2 (root chain_tree) tt chain
  = Ok None (Store (heap chain ++ replicate 2 (CArr [])) (clones chain)).
Proof.
  apply (deletion_cascades_to_root 4 2 chain_tree chain_only_child
           ltac:(lia) 2 tt chain chain_repr ltac:(lia)).
Defined.
